(** * BeatMaker: a shallow embedding of the step sequencer of [script.js]

    The class [BeatMaker] of [src/script.js] is embedded as a record of its
    fields together with the part of the browser it talks to: the table of
    live [setInterval] timers, the step and mute buttons of the page, and the
    oscillators started on the audio context.  Methods are programs of a
    state-and-exception monad: a method either returns ([Ok]) or throws
    ([Throw]); in both cases the state reached is kept, because JavaScript
    does not roll back the assignments made before an exception.

    What is left out is cosmetic and touches no field of the class: the icon
    and class of the play button, the tempo label, the 200ms [playing] flash
    of a step button and the visualizer bars (the last two use one-shot
    [setTimeout] callbacks and [Math.random]).  The page itself
    ([index.html]) is not part of the sources; the model assumes that it holds
    the elements the constructor looks up, one mute button per track, not
    yet marked as muted, and no element carrying [data-step] besides the
    buttons made by [generateSteps].  A button is looked up by the track
    name written between the quotes of a selector; the model looks it up by
    the name itself, which is the same for a name with no quote, no
    backslash and no line end.

    A number is a double.  The model computes the doubles it can write
    exactly (the integers up to 2^53 and the dyadic fractions of such
    integers) and gives a name without a value to every other one: the
    number [parseInt] makes of a longer numeral, and a quotient that has
    to be rounded.  A string is a sequence of code units below 256.

    The objects used as tables ([pattern], [soundConfig], [variations])
    are maps of their own properties; a name they only inherit from
    [Object.prototype] counts as absent.  For such a name [toggleStep]
    throws after writing to an object that is not a row, with the fields
    of the class as the model has them, and [changeSound] rebuilds the
    entry of a track that has parameters with the same parameters.  For a
    track without parameters [changeSound] with such a name makes an entry
    without parameters, which the model does not record; nothing below
    speaks of that case. *)

From Stdlib Require Import ZArith QArith Lia Ascii DecimalString DecimalZ.
From stdpp Require Import gmap strings list fin_maps numbers.

Close Scope Q_scope.
Open Scope Z_scope.

(** * The program *)

(** ** Numbers *)

(** The values a JavaScript number takes in this program.  [Fin q] is a
    double that is exactly the rational [q]; zero is [Fin 0] and the
    negative zero is [NegZero].  [Approx z] and [Quot a b] name a double
    without computing it: the number [parseInt] makes of the integer [z],
    which is beyond 2^53, and the quotient of [a] by [b] as the division
    rounds it.  Two such names can name the same double. *)
Inductive number : Type :=
  | Fin (q : Q)
  | NegZero
  | PosInf
  | NegInf
  | NaN
  | Approx (z : Z)
  | Quot (a b : number).

(** The integers up to this one, in magnitude, are doubles. *)
Definition max_exact : Z := 2 ^ 53.

(** The number of an integer literal, or of an integer within
    [max_exact]. *)
Definition of_Z (z : Z) : number := Fin (inject_Z z).

Fixpoint power_of_two (p : positive) : bool :=
  match p with
  | xH => true
  | xO p' => power_of_two p'
  | xI _ => false
  end.

(** A test that the fraction [q], in lowest terms, is a double: an
    integer within [max_exact] over a power of two that is not beyond
    2^1000.  (Other doubles exist; for them the test says no.) *)
Definition exact (q : Q) : bool :=
  (Z.abs (Qnum q) <=? max_exact) && power_of_two (Qden q) &&
  (Z.pos (Qden q) <=? 2 ^ 1000).

(** [a / b] on numbers.  The division of doubles gives the double
    nearest to the quotient: the quotient itself where [exact] shows it to
    be a double, and otherwise a number that is only named. *)
Definition num_div (a b : number) : number :=
  match a, b with
  | NaN, _ | _, NaN => NaN
  | Fin x, Fin y =>
      match Qnum y, Qnum x with
      | 0, 0 => NaN
      | 0, Z.pos _ => PosInf
      | 0, Z.neg _ => NegInf
      | Z.pos _, 0 => Fin 0%Q
      | Z.neg _, 0 => NegZero
      | _, _ =>
          let q := Qred (x / y) in
          if exact q then Fin q else Quot a b
      end
  | Fin x, NegZero =>
      match Qnum x with
      | 0 => NaN
      | Z.pos _ => NegInf
      | Z.neg _ => PosInf
      end
  | NegZero, Fin y =>
      match Qnum y with
      | 0 => NaN
      | Z.pos _ => NegZero
      | Z.neg _ => Fin 0%Q
      end
  | NegZero, NegZero => NaN
  | Fin x, PosInf => if Qnum x <? 0 then NegZero else Fin 0%Q
  | Fin x, NegInf => if Qnum x <? 0 then Fin 0%Q else NegZero
  | NegZero, PosInf => NegZero
  | NegZero, NegInf => Fin 0%Q
  | PosInf, Fin y => if Qnum y <? 0 then NegInf else PosInf
  | NegInf, Fin y => if Qnum y <? 0 then PosInf else NegInf
  | PosInf, NegZero => NegInf
  | NegInf, NegZero => PosInf
  | (PosInf | NegInf), (PosInf | NegInf) => NaN
  | _, _ => Quot a b
  end.

(** ** [parseInt] *)

Module ParseInt.

(** White space and line ends, among the code units below 256. *)
Definition is_space (c : ascii) : bool :=
  let n := nat_of_ascii c in
  ((9 <=? n) && (n <=? 13))%nat || (n =? 32)%nat || (n =? 160)%nat.

Fixpoint trim_start (s : string) : string :=
  match s with
  | String c r => if is_space c then trim_start r else s
  | EmptyString => s
  end.

(** The value of [c] as a digit, for radixes up to 16. *)
Definition digit_value (c : ascii) : option Z :=
  let n := Z.of_nat (nat_of_ascii c) in
  if (48 <=? n) && (n <=? 57) then Some (n - 48)
  else if (97 <=? n) && (n <=? 102) then Some (n - 87)
  else if (65 <=? n) && (n <=? 70) then Some (n - 55)
  else None.

Definition digit_in (radix : Z) (c : ascii) : option Z :=
  match digit_value c with
  | Some d => if d <? radix then Some d else None
  | None => None
  end.

(** Reads the longest prefix of digits of [s]; [acc] holds the digits
    read so far, [None] when there is none yet. *)
Fixpoint digits (radix : Z) (s : string) (acc : option Z) : option Z :=
  match s with
  | String c r =>
      match digit_in radix c with
      | Some d => digits radix r (Some (default 0 acc * radix + d))
      | None => acc
      end
  | EmptyString => acc
  end.

Definition strip_sign (s : string) : Z * string :=
  match s with
  | String "-" r => (-1, r)
  | String "+" r => (1, r)
  | _ => (1, s)
  end.

Definition strip_radix (s : string) : Z * string :=
  match s with
  | String "0" (String "x" r) | String "0" (String "X" r) => (16, r)
  | _ => (10, s)
  end.

(** The number an unsigned numeral starts with, if it starts with one. *)
Definition magnitude (s : string) : option Z :=
  let '(radix, s1) := strip_radix s in
  digits radix s1 None.

(** The number of the integer [sign * n], for [n] read from digits: a
    zero keeps the sign, and an integer beyond [max_exact] is rounded, or
    approximated, as the engine sees fit. *)
Definition to_number (sign n : Z) : number :=
  if (n =? 0) && (sign <? 0) then NegZero
  else if n <=? max_exact then of_Z (sign * n)
  else Approx (sign * n).

(** [parseInt(s)] without a radix argument. *)
Definition parseInt (s : string) : number :=
  let '(sign, s1) := strip_sign (trim_start s) in
  match magnitude s1 with
  | Some n => to_number sign n
  | None => NaN
  end.

(** The decimal numeral of an integer, as the [value] of a range input
    holds it and as [String(z)] writes an integer within [max_exact]. *)
Definition decimal (z : Z) : string := NilZero.string_of_int (Z.to_int z).

(** The value of the digits [d] read after the number [acc]. *)
Fixpoint uint_value (d : Decimal.uint) (acc : Z) : Z :=
  match d with
  | Decimal.Nil => acc
  | Decimal.D0 l => uint_value l (acc * 10 + 0)
  | Decimal.D1 l => uint_value l (acc * 10 + 1)
  | Decimal.D2 l => uint_value l (acc * 10 + 2)
  | Decimal.D3 l => uint_value l (acc * 10 + 3)
  | Decimal.D4 l => uint_value l (acc * 10 + 4)
  | Decimal.D5 l => uint_value l (acc * 10 + 5)
  | Decimal.D6 l => uint_value l (acc * 10 + 6)
  | Decimal.D7 l => uint_value l (acc * 10 + 7)
  | Decimal.D8 l => uint_value l (acc * 10 + 8)
  | Decimal.D9 l => uint_value l (acc * 10 + 9)
  end.

End ParseInt.
Export ParseInt.

(** ** Arrays *)

(** A JavaScript array of booleans: its own properties with an integer
    name, and its [length].  A missing property reads as [undefined]. *)
Record jsarray : Type := JsArray {
  items : gmap Z bool;
  arr_length : Z
}.

Definition is_index (i : Z) : bool := (0 <=? i) && (i <? 2 ^ 32 - 1).

(** [a[i]] *)
Definition array_get (a : jsarray) (i : Z) : option bool := items a !! i.

(** [a[i] = v]: past the end the array grows. *)
Definition array_set (a : jsarray) (i : Z) (v : bool) : jsarray :=
  {| items := <[i := v]> (items a);
     arr_length := if is_index i then Z.max (arr_length a) (i + 1)
                   else arr_length a |}.

(** [a.fill(v)] *)
Definition array_fill (a : jsarray) (v : bool) : jsarray :=
  {| items := foldr (λ i m, <[i := v]> m) (items a) (seqZ 0 (arr_length a));
     arr_length := arr_length a |}.

(** [new Array(n)] *)
Definition array_new (n : Z) : jsarray := {| items := ∅; arr_length := n |}.

(** Truthiness of a cell: [undefined] is falsy. *)
Definition truthy (v : option bool) : bool := default false v.

(** ** Sounds *)

Inductive waveform : Type := sine | square | sawtooth | triangle.

(** An entry of [soundConfig]; [decay] is missing from an entry that
    [changeSound] made for a track the constructor did not set up. *)
Record config : Type := Config {
  frequency : Z;
  type : waveform;
  decay : option Q
}.

(** An entry of the [variations] table of [changeSound]. *)
Record variation : Type := Variation {
  var_frequency : Z;
  var_type : waveform
}.

Inductive filter_setting : Type :=
  | Lowpass (cutoff : Z)
  | Highpass (cutoff : Z)
  | DefaultFilter.

(** An oscillator started by [playSound]. *)
Record voice : Type := Voice {
  v_track : string;
  v_frequency : Z;
  v_type : waveform;
  v_filter : filter_setting;
  v_decay : Q
}.

(** ** The page *)

(** The classes of a step button that the model follows. *)
Record classes : Type := Classes {
  cls_active : bool;
  cls_current : bool
}.

(** ** The state *)

Record BeatMaker : Type := mkBeatMaker {
  (* fields of the class *)
  currentStep : Z;
  isPlaying : bool;
  tempo : number;
  intervalId : option positive;
  pattern : gmap string jsarray;
  mutedTracks : gset string;
  audioContext : bool;
  soundConfig : gmap string config;
  (* the browser *)
  timers : gmap positive number;
  nextTimerId : positive;
  stepBtns : gmap (string * Z) classes;
  muteBtns : gmap string bool;
  voices : list voice
}.

(** [this.tracks] and [this.steps] are set by the constructor and never
    assigned again. *)
Definition tracks : list string := ["kick"; "snare"; "hihat"; "crash"].
Definition steps : Z := 16.

Definition set_currentStep (v : Z) (b : BeatMaker) : BeatMaker :=
  mkBeatMaker v (isPlaying b) (tempo b) (intervalId b) (pattern b)
    (mutedTracks b) (audioContext b) (soundConfig b) (timers b)
    (nextTimerId b) (stepBtns b) (muteBtns b) (voices b).

Definition set_isPlaying (v : bool) (b : BeatMaker) : BeatMaker :=
  mkBeatMaker (currentStep b) v (tempo b) (intervalId b) (pattern b)
    (mutedTracks b) (audioContext b) (soundConfig b) (timers b)
    (nextTimerId b) (stepBtns b) (muteBtns b) (voices b).

Definition set_tempo (v : number) (b : BeatMaker) : BeatMaker :=
  mkBeatMaker (currentStep b) (isPlaying b) v (intervalId b) (pattern b)
    (mutedTracks b) (audioContext b) (soundConfig b) (timers b)
    (nextTimerId b) (stepBtns b) (muteBtns b) (voices b).

Definition set_intervalId (v : option positive) (b : BeatMaker) : BeatMaker :=
  mkBeatMaker (currentStep b) (isPlaying b) (tempo b) v (pattern b)
    (mutedTracks b) (audioContext b) (soundConfig b) (timers b)
    (nextTimerId b) (stepBtns b) (muteBtns b) (voices b).

Definition set_pattern (v : gmap string jsarray) (b : BeatMaker) : BeatMaker :=
  mkBeatMaker (currentStep b) (isPlaying b) (tempo b) (intervalId b) v
    (mutedTracks b) (audioContext b) (soundConfig b) (timers b)
    (nextTimerId b) (stepBtns b) (muteBtns b) (voices b).

Definition set_mutedTracks (v : gset string) (b : BeatMaker) : BeatMaker :=
  mkBeatMaker (currentStep b) (isPlaying b) (tempo b) (intervalId b)
    (pattern b) v (audioContext b) (soundConfig b) (timers b)
    (nextTimerId b) (stepBtns b) (muteBtns b) (voices b).

Definition set_soundConfig (v : gmap string config) (b : BeatMaker) : BeatMaker :=
  mkBeatMaker (currentStep b) (isPlaying b) (tempo b) (intervalId b)
    (pattern b) (mutedTracks b) (audioContext b) v (timers b)
    (nextTimerId b) (stepBtns b) (muteBtns b) (voices b).

Definition set_timers (v : gmap positive number) (n : positive)
    (b : BeatMaker) : BeatMaker :=
  mkBeatMaker (currentStep b) (isPlaying b) (tempo b) (intervalId b)
    (pattern b) (mutedTracks b) (audioContext b) (soundConfig b) v n
    (stepBtns b) (muteBtns b) (voices b).

Definition set_stepBtns (v : gmap (string * Z) classes) (b : BeatMaker) : BeatMaker :=
  mkBeatMaker (currentStep b) (isPlaying b) (tempo b) (intervalId b)
    (pattern b) (mutedTracks b) (audioContext b) (soundConfig b) (timers b)
    (nextTimerId b) v (muteBtns b) (voices b).

Definition set_muteBtns (v : gmap string bool) (b : BeatMaker) : BeatMaker :=
  mkBeatMaker (currentStep b) (isPlaying b) (tempo b) (intervalId b)
    (pattern b) (mutedTracks b) (audioContext b) (soundConfig b) (timers b)
    (nextTimerId b) (stepBtns b) v (voices b).

Definition set_voices (v : list voice) (b : BeatMaker) : BeatMaker :=
  mkBeatMaker (currentStep b) (isPlaying b) (tempo b) (intervalId b)
    (pattern b) (mutedTracks b) (audioContext b) (soundConfig b) (timers b)
    (nextTimerId b) (stepBtns b) (muteBtns b) v.

(** ** The monad of methods *)

(** The only exception the program meets: reading a property of
    [undefined] or [null], or passing a non-finite time to the audio API. *)
Inductive error : Type := TypeError.

Inductive result (A : Type) : Type :=
  | Ok (a : A) (b : BeatMaker)
  | Throw (e : error) (b : BeatMaker).
Arguments Ok {A} a b.
Arguments Throw {A} e b.

(** The state a call leaves behind, whether it returned or threw. *)
Definition final {A} (r : result A) : BeatMaker :=
  match r with Ok _ b | Throw _ b => b end.

Definition returned {A} (r : result A) : bool :=
  match r with Ok _ _ => true | Throw _ _ => false end.

Definition M (A : Type) : Type := BeatMaker → result A.

#[global] Instance M_ret : MRet M := λ A a b, Ok a b.
#[global] Instance M_bind : MBind M := λ A B f m b,
  match m b with
  | Ok a b' => f a b'
  | Throw e b' => Throw e b'
  end.

Definition throw {A} (e : error) : M A := λ b, Throw e b.
Definition gets {A} (f : BeatMaker → A) : M A := λ b, Ok (f b) b.
Definition modify (f : BeatMaker → BeatMaker) : M unit := λ b, Ok tt (f b).

(** [o.p] where [o] may be [undefined] or [null]. *)
Definition deref {A} (o : option A) : M A :=
  match o with
  | Some a => mret a
  | None => throw TypeError
  end.

(** [l.forEach(f)] *)
Fixpoint forEach {A} (l : list A) (f : A → M unit) : M unit :=
  match l with
  | [] => mret tt
  | x :: r => f x ;; forEach r f
  end.

(** ** The browser *)

(** [setInterval(() => this.playStep(), interval)]: every live timer of
    the program has this callback, so a timer is its delay. *)
Definition setInterval (interval : number) : M positive :=
  id ← gets nextTimerId;
  tm ← gets timers;
  modify (set_timers (<[id := interval]> tm) (Pos.succ id));;
  mret id.

(** [clearInterval(id)] *)
Definition clearInterval (id : option positive) : M unit :=
  match id with
  | Some i =>
      tm ← gets timers;
      next ← gets nextTimerId;
      modify (set_timers (delete i tm) next)
  | None => mret tt
  end.

(** [document.querySelector('[data-track=...][data-step=...]')] *)
Definition querySelector_step (track : string) (step : Z) : M (option classes) :=
  gets (λ b, stepBtns b !! (track, step)).

(** A change of the class list of the step button of [track] and [step];
    the button is [null] when the page has none. *)
Definition classList_step (track : string) (step : Z)
    (f : classes → classes) : M unit :=
  stepBtn ← querySelector_step track step;
  c ← deref stepBtn;
  btns ← gets stepBtns;
  modify (set_stepBtns (<[(track, step) := f c]> btns)).

Definition with_active (v : bool) (c : classes) : classes :=
  {| cls_active := v; cls_current := cls_current c |}.
Definition with_current (v : bool) (c : classes) : classes :=
  {| cls_active := cls_active c; cls_current := v |}.

(** ** The methods of [BeatMaker] *)

(** [this.pattern[track]], an array or [undefined]. *)
Definition pattern_row (track : string) : M (option jsarray) :=
  gets (λ b, pattern b !! track).

(** [this.pattern[track][step]] *)
Definition pattern_cell (track : string) (step : Z) : M (option bool) :=
  row ← pattern_row track;
  a ← deref row;
  mret (array_get a step).

Definition clearCurrentStepHighlight : M unit :=
  btns ← gets stepBtns;
  modify (set_stepBtns (with_current false <$> btns)).

Definition filter_of (track : string) : filter_setting :=
  if decide (track = "kick") then Lowpass 100
  else if decide (track = "hihat") then Highpass 5000
  else DefaultFilter.

Definition playSound (track : string) : M unit :=
  ctx ← gets audioContext;
  if negb ctx then mret tt else
  cfg ← gets (λ b, soundConfig b !! track);
  match cfg with
  | None => mret tt
  | Some config =>
      (* the ramp to [now + config.decay] needs a finite time *)
      d ← deref (decay config);
      vs ← gets voices;
      modify (set_voices (vs ++ [Voice track (frequency config) (type config)
                                     (filter_of track) d]))
  end.

Definition toggleStep (track : string) (step : Z) : M unit :=
  old ← pattern_cell track step;
  row ← pattern_row track;
  a ← deref row;
  pat ← gets pattern;
  modify (set_pattern (<[track := array_set a step (negb (truthy old))]> pat));;
  now ← pattern_cell track step;
  classList_step track step (with_active (truthy now));;
  now ← pattern_cell track step;
  if truthy now then playSound track else mret tt.

Definition interval_of (tempo : number) : number :=
  num_div (num_div (of_Z 60000) tempo) (of_Z 4).

Definition play : M unit :=
  modify (set_isPlaying true);;
  t ← gets tempo;
  id ← setInterval (interval_of t);
  modify (set_intervalId (Some id)).

Definition pause : M unit :=
  modify (set_isPlaying false);;
  id ← gets intervalId;
  match id with
  | Some _ =>
      clearInterval id;;
      modify (set_intervalId None)
  | None => mret tt
  end;;
  clearCurrentStepHighlight.

Definition togglePlay : M unit :=
  playing ← gets isPlaying;
  if (playing : bool) then pause else play.

Definition stop : M unit :=
  pause;;
  modify (set_currentStep 0).

(** The callback of the loop of [playStep]. *)
Definition visit (track : string) : M unit :=
  cur ← gets currentStep;
  classList_step track cur (with_current true);;
  cur ← gets currentStep;
  cell ← pattern_cell track cur;
  muted ← gets (λ b, bool_decide (track ∈ mutedTracks b));
  if truthy cell && negb muted then playSound track else mret tt.

Definition playStep : M unit :=
  clearCurrentStepHighlight;;
  forEach tracks visit;;
  cur ← gets currentStep;
  modify (set_currentStep (Z.rem (cur + 1) steps)).

Definition toggleMute (track : string) : M unit :=
  muteBtn ← gets (λ b, muteBtns b !! track);
  muted ← gets mutedTracks;
  if bool_decide (track ∈ muted) then
    modify (set_mutedTracks (muted ∖ {[track]}));;
    _ ← deref muteBtn;
    btns ← gets muteBtns;
    modify (set_muteBtns (<[track := false]> btns))
  else
    modify (set_mutedTracks ({[track]} ∪ muted));;
    _ ← deref muteBtn;
    btns ← gets muteBtns;
    modify (set_muteBtns (<[track := true]> btns)).

Definition variations : gmap string variation :=
  list_to_map
    [ ("kick1", Variation 60 sine);
      ("kick2", Variation 40 triangle);
      ("kick3", Variation 80 square);
      ("snare1", Variation 200 square);
      ("snare2", Variation 300 sawtooth);
      ("snare3", Variation 150 triangle);
      ("hihat1", Variation 8000 square);
      ("hihat2", Variation 10000 sawtooth);
      ("hihat3", Variation 6000 triangle);
      ("crash1", Variation 300 sawtooth);
      ("crash2", Variation 400 square) ].

(** [{ ...old, ...v }] *)
Definition spread (old : option config) (v : variation) : config :=
  {| frequency := var_frequency v;
     type := var_type v;
     decay := old ≫= decay |}.

Definition changeSound (track soundId : string) : M unit :=
  match variations !! soundId with
  | Some v =>
      cfgs ← gets soundConfig;
      modify (set_soundConfig (<[track := spread (cfgs !! track) v]> cfgs))
  | None => mret tt
  end.

Definition updateTempo (newTempo : string) : M unit :=
  modify (set_tempo (parseInt newTempo));;
  playing ← gets isPlaying;
  if (playing : bool) then
    id ← gets intervalId;
    clearInterval id;;
    t ← gets tempo;
    id' ← setInterval (interval_of t);
    modify (set_intervalId (Some id'))
  else mret tt.

(** The callback of the first loop of [clearAll]. *)
Definition wipe (track : string) : M unit :=
  row ← pattern_row track;
  a ← deref row;
  pat ← gets pattern;
  modify (set_pattern (<[track := array_fill a false]> pat)).

Definition clearAll : M unit :=
  forEach tracks wipe;;
  btns ← gets stepBtns;
  modify (set_stepBtns (with_active false <$> btns));;
  stop.

(** ** The constructor *)

Definition default_sounds : gmap string config :=
  list_to_map
    [ ("kick", Config 60 sine (Some (1 # 2)%Q));
      ("snare", Config 200 square (Some (3 # 10)%Q));
      ("hihat", Config 8000 square (Some (1 # 10)%Q));
      ("crash", Config 300 sawtooth (Some 1%Q)) ].

(** The buttons [generateSteps] adds to the page. *)
Definition generateSteps : gmap (string * Z) classes :=
  list_to_map
    (track ← tracks; i ← seqZ 0 steps; [((track, i), Classes false false)]).

(** The state after [new BeatMaker()]; [audio] tells whether the browser
    could make an audio context. *)
Definition constructor (audio : bool) : BeatMaker :=
  {| currentStep := 0;
     isPlaying := false;
     tempo := of_Z 120;
     intervalId := None;
     pattern := list_to_map ((λ track, (track, array_fill (array_new steps) false)) <$> tracks);
     mutedTracks := ∅;
     audioContext := audio;
     soundConfig := default_sounds;
     timers := ∅;
     nextTimerId := 1%positive;
     stepBtns := generateSteps;
     muteBtns := list_to_map ((λ track, (track, false)) <$> tracks);
     voices := [] |}.

Definition run (m : M unit) (b : BeatMaker) : BeatMaker := final (m b).

(** ** The keyboard *)


(** * What the theorems speak of *)

(** ** Queries and the transition system *)

(** [this.pattern[track][step]], read as a condition. *)
Definition isActive (b : BeatMaker) (track : string) (step : Z) : bool :=
  truthy (a ← pattern b !! track; array_get a step).

(** [this.mutedTracks.has(track)] *)
Definition isMuted (b : BeatMaker) (track : string) : bool :=
  bool_decide (track ∈ mutedTracks b).

(** What the page can do to a [BeatMaker]: the handlers installed by
    [setupEventListeners], [generateSteps] and the [keydown] listener, and
    the firing of a live timer.  [play] is not among them, it is only
    called by [togglePlay]. *)
Inductive command : Type :=
  | TogglePlay
  | Pause
  | Stop
  | ClearAll
  | UpdateTempo (newTempo : string)
  | ToggleMute (track : string)
  | ChangeSound (track soundId : string)
  | ToggleStep (track : string) (step : Z)
  | Tick (id : positive).

Definition exec (c : command) : M unit :=
  match c with
  | TogglePlay => togglePlay
  | Pause => pause
  | Stop => stop
  | ClearAll => clearAll
  | UpdateTempo v => updateTempo v
  | ToggleMute t => toggleMute t
  | ChangeSound t v => changeSound t v
  | ToggleStep t s => toggleStep t s
  | Tick id =>
      tm ← gets timers;
      match tm !! id with
      | Some _ => playStep
      | None => mret tt
      end
  end.

Inductive reachable : BeatMaker → Prop :=
  | reach_new (audio : bool) : reachable (constructor audio)
  | reach_exec (b : BeatMaker) (c : command) :
      reachable b → reachable (run (exec c) b).

(** The same with direct calls of [play], as a script holding
    [window.beatMaker] can make them. *)
Inductive reachable_with_play : BeatMaker → Prop :=
  | rwp_new (audio : bool) : reachable_with_play (constructor audio)
  | rwp_exec (b : BeatMaker) (c : command) :
      reachable_with_play b → reachable_with_play (run (exec c) b)
  | rwp_play (b : BeatMaker) :
      reachable_with_play b → reachable_with_play (run play b).

(** ** The invariant of reachable states *)

Definition row_ok (a : jsarray) : Prop :=
  steps ≤ arr_length a ∧ ∀ s, 0 ≤ s < steps → is_Some (array_get a s).

(** While playing, the one live timer is the one [intervalId] holds;
    otherwise no timer is live.  Identifiers of live timers are below the
    next one the browser hands out. *)
Definition timers_ok (playing : bool) (iid : option positive)
    (tm : gmap positive number) (next : positive) : Prop :=
  ((playing = true ∧ ∃ id iv, iid = Some id ∧ tm = {[id := iv]}) ∨
   (playing = false ∧ iid = None ∧ tm = ∅)) ∧
  ∀ id, is_Some (tm !! id) → (id < next)%positive.

Record wf (b : BeatMaker) : Prop := {
  wf_step : 0 ≤ currentStep b < steps;
  wf_rows : ∀ t, t ∈ tracks → ∃ a, pattern b !! t = Some a ∧ row_ok a;
  wf_rows_only : ∀ t, is_Some (pattern b !! t) → t ∈ tracks;
  wf_sounds : ∀ t, t ∈ tracks →
    ∃ c d, soundConfig b !! t = Some c ∧ decay c = Some d;
  wf_btns : ∀ t s,
    is_Some (stepBtns b !! (t, s)) ↔ t ∈ tracks ∧ 0 ≤ s < steps;
  wf_mute_btns : ∀ t, is_Some (muteBtns b !! t) ↔ t ∈ tracks;
  wf_timers :
    timers_ok (isPlaying b) (intervalId b) (timers b) (nextTimerId b)
}.

(** Reduction of monadic programs to the state they compute. *)
Ltac mred :=
  cbv [mbind M_bind mret M_ret gets modify throw deref run
       setInterval clearInterval querySelector_step classList_step
       pattern_row pattern_cell clearCurrentStepHighlight
       set_currentStep set_isPlaying set_tempo set_intervalId set_pattern
       set_mutedTracks set_soundConfig set_timers set_stepBtns set_muteBtns
       set_voices];
  cbn [currentStep isPlaying tempo intervalId pattern mutedTracks
       audioContext soundConfig timers nextTimerId stepBtns muteBtns voices
       final returned].

Ltac mrun tac := repeat (first [progress tac | progress mred]).

(** Splits the invariant of a state written field by field, and closes
    the fields that are those of [Hwf]. *)
Ltac wf_fields Hwf :=
  split;
  cbn [currentStep isPlaying tempo intervalId pattern mutedTracks
       audioContext soundConfig timers nextTimerId stepBtns muteBtns voices];
  try (by apply Hwf).

(** ** States in closed form *)

(** The live timers after [clearInterval(id)]. *)
Definition cancel (id : option positive) (tm : gmap positive number) :
    gmap positive number :=
  match id with Some i => delete i tm | None => tm end.

(** The oscillator [playSound] starts for [track] with the parameters [c],
    whose decay is [d]. *)
Definition voice_of (track : string) (c : config) (d : Q) : voice :=
  Voice track (frequency c) (type c) (filter_of track) d.

(** The state after a sound of [track] was asked for. *)
Definition sounded (track : string) (c : config) (d : Q) (b : BeatMaker) :
    BeatMaker :=
  if audioContext b then set_voices (voices b ++ [voice_of track c d]) b
  else b.

(** The state after the cell of [(track, step)] was flipped, [a] being
    the row of [track]. *)
Definition flipped (track : string) (step : Z) (a : jsarray) (b : BeatMaker) :
    BeatMaker :=
  set_pattern
    (<[track := array_set a step (negb (truthy (array_get a step)))]>
       (pattern b)) b.

(** The same after the button [c] of the cell was given its class. *)
Definition shown (track : string) (step : Z) (a : jsarray) (c : classes)
    (b : BeatMaker) : BeatMaker :=
  set_stepBtns
    (<[(track, step) := with_active (negb (truthy (array_get a step))) c]>
       (stepBtns b))
    (flipped track step a b).

(** The fields of the timing loop, and the fields set by the controls of
    the tracks. *)
Definition transport (b : BeatMaker) :=
  (isPlaying b, tempo b, intervalId b, timers b, nextTimerId b).

Definition settings (b : BeatMaker) :=
  (mutedTracks b, audioContext b, soundConfig b, muteBtns b).

(** Whether [track] sounds on the tick that [b] is about to make. *)
Definition fires (b : BeatMaker) (track : string) : bool :=
  isActive b track (currentStep b) && negb (isMuted b track).

(** The oscillator a sound of [track] starts in the state [b]. *)
Definition voice_for (b : BeatMaker) (track : string) : option voice :=
  c ← soundConfig b !! track; d ← decay c; Some (voice_of track c d).

(** The oscillators a tick starts for the tracks [l]. *)
Definition tick_voices (b : BeatMaker) (l : list string) : list voice :=
  if audioContext b then omap (voice_for b) (filter (λ t, fires b t = true) l)
  else [].

(** The state after the loop of [playStep] gave the button [c] of
    [track] at the current step the class [current]. *)
Definition highlighted (track : string) (c : classes) (b : BeatMaker) :
    BeatMaker :=
  set_stepBtns (<[(track, currentStep b) := with_current true c]> (stepBtns b)) b.

(** The state [b] while the loop of a tick that started in [b0] has gone
    through the tracks [pre]. *)
Definition ticking (b0 : BeatMaker) (pre : list string) (b : BeatMaker) :
    Prop :=
  wf b ∧ currentStep b = currentStep b0 ∧ pattern b = pattern b0 ∧
  transport b = transport b0 ∧ settings b = settings b0 ∧
  voices b = voices b0 ++ tick_voices b0 pre.

(** A row whose elements are all [false]. *)
Definition cleared (a : jsarray) : Prop :=
  ∀ s, 0 ≤ s < arr_length a → array_get a s = Some false.

(** The state [b] while the loop of [clearAll], started in [b0], has gone
    through the tracks [pre]. *)
Definition clearing (b0 : BeatMaker) (pre : list string) (b : BeatMaker) :
    Prop :=
  wf b ∧ currentStep b = currentStep b0 ∧ transport b = transport b0 ∧
  settings b = settings b0 ∧ voices b = voices b0 ∧
  stepBtns b = stepBtns b0 ∧
  ∀ t, t ∈ pre → ∃ a, pattern b !! t = Some a ∧ cleared a.

(** Evaluates the digit tests of [parseInt] on the characters at hand. *)
Ltac eval_digit :=
  match goal with
  | |- context [digit_in 10 ?c] =>
      let v := eval vm_compute in (digit_in 10 c) in
      change (digit_in 10 c) with v
  end.

(** [this.pattern[track][step]], or [None] where JavaScript has
    [undefined]. *)
Definition cell (b : BeatMaker) (track : string) (step : Z) : option bool :=
  a ← pattern b !! track; array_get a step.

(** The class [active] of the button of [(track, step)]. *)
Definition shown_active (b : BeatMaker) (track : string) (step : Z) :
    option bool :=
  cls_active <$> stepBtns b !! (track, step).

(** ** States the examples start from *)

(** Two calls of [play] on the new object. *)
Definition played_twice : BeatMaker :=
  run play (run play (constructor true)).

(** The new object after a click on the mute button of the snare. *)
Definition snare_muted : BeatMaker :=
  run (toggleMute "snare") (constructor true).

(** The new object after a click on the first step of the kick. *)
Definition kick_on_first : BeatMaker :=
  run (toggleStep "kick" 0) (constructor true).

(** An object without audio, with one step of the crash set, playing. *)
Definition crash_playing : BeatMaker :=
  run togglePlay (run (toggleStep "crash" 7) (constructor false)).

(** The new object started and five ticks later. *)
Definition five_ticks_in : BeatMaker :=
  Nat.iter 5 (run (exec (Tick 1))) (run togglePlay (constructor true)).

(** The new object started, with the tempo then set to 90. *)
Definition playing_at_90 : BeatMaker :=
  run (updateTempo "90") (run togglePlay (constructor true)).

(** ** What the page shows *)

(** The class [current] of the button of [(track, step)]. *)
Definition shown_current (b : BeatMaker) (track : string) (step : Z) :
    option bool :=
  cls_current <$> stepBtns b !! (track, step).

(** The set of muted tracks after a click on the mute button of [track]. *)
Definition flip_mute (track : string) (ms : gset string) : gset string :=
  if bool_decide (track ∈ ms) then ms ∖ {[track]} else {[track]} ∪ ms.

(** The buttons while the loop of a tick that started in [b0] has gone
    through the tracks [pre]. *)
Definition lit (b0 : BeatMaker) (pre : list string) (b : BeatMaker) : Prop :=
  ∀ t s,
    stepBtns b !! (t, s) =
    if bool_decide (t ∈ pre ∧ s = currentStep b0)
    then with_current true <$> stepBtns b0 !! (t, s)
    else stepBtns b0 !! (t, s).

(** What the page shows agrees with the fields, the timer with the tempo,
    and the sounds with the tables. *)
Record consistent (b : BeatMaker) : Prop := {
  ok_active : ∀ t s, t ∈ tracks → 0 ≤ s < steps →
    shown_active b t s = Some (isActive b t s);
  ok_muted : ∀ t, t ∈ tracks → muteBtns b !! t = Some (isMuted b t);
  ok_current : ∀ t s, shown_current b t s = Some true →
    isPlaying b = true ∧ s = (currentStep b - 1) mod steps;
  ok_interval : ∀ id iv, timers b !! id = Some iv → iv = interval_of (tempo b);
  ok_sounds : ∀ t c, default_sounds !! t = Some c →
    ∃ c', soundConfig b !! t = Some c' ∧ decay c' = decay c ∧
      ((frequency c' = frequency c ∧ type c' = type c) ∨
       ∃ id v, variations !! id = Some v ∧
         frequency c' = var_frequency v ∧ type c' = var_type v);
  ok_silent : audioContext b = false → voices b = []
}.

Ltac ok_fields Hc :=
  split;
  unfold shown_active, shown_current, isActive, isMuted; mred;
  cbn [currentStep isPlaying tempo intervalId pattern mutedTracks
       audioContext soundConfig timers nextTimerId stepBtns muteBtns voices];
  try (by apply Hc).

(** ** The calls of the page *)

(** The calls the page makes: its step buttons and mute buttons are those
    of the four tracks and the sixteen steps. *)
Definition from_page (c : command) : Prop :=
  match c with
  | ToggleStep t s => t ∈ tracks ∧ 0 ≤ s < steps
  | ToggleMute t => t ∈ tracks
  | _ => True
  end.

(** The states the page itself can bring about. *)
Inductive page_reachable : BeatMaker → Prop :=
  | page_new (audio : bool) : page_reachable (constructor audio)
  | page_exec (b : BeatMaker) (c : command) :
      page_reachable b → from_page c → page_reachable (run (exec c) b).

(** A string that can stand between the quotes of a selector as it is:
    it has no quote, no backslash and no line end. *)
Definition plain (s : string) : bool :=
  forallb (λ c : ascii,
             negb (bool_decide (c ∈ ["034"; "092"; "010"; "012"; "013"]%char)))
          (String.list_ascii_of_string s).

(** ** States the further examples start from *)

(** The new object after a toggle far outside the grid. *)
Definition after_stray_toggle : BeatMaker :=
  run (toggleStep "kick" 20) (constructor true).

(** The new object started and three ticks later. *)
Definition three_ticks_in : BeatMaker :=
  Nat.iter 3 (run (exec (Tick 1))) (run togglePlay (constructor true)).

(** * Proofs *)

(** ** Arrays *)

Lemma array_set_get a i v : array_get (array_set a i v) i = Some v.
Proof. unfold array_get, array_set; cbn. apply lookup_insert_eq. Qed.

Lemma array_set_get_ne a i j v :
  i ≠ j → array_get (array_set a i v) j = array_get a j.
Proof. intros. unfold array_get, array_set; cbn. by apply lookup_insert_ne. Qed.

Lemma array_set_length_in a i v :
  0 ≤ i < arr_length a → arr_length (array_set a i v) = arr_length a.
Proof.
  intros. unfold array_set; cbn. destruct (is_index i); lia.
Qed.

Lemma array_set_length_le a i v : arr_length a ≤ arr_length (array_set a i v).
Proof. unfold array_set; cbn. destruct (is_index i); lia. Qed.

Lemma array_set_row_ok a i v : row_ok a → row_ok (array_set a i v).
Proof.
  intros [Hlen Hcells]. split.
  - pose proof (array_set_length_le a i v). lia.
  - intros s Hs. destruct (decide (i = s)) as [->|Hne].
    + rewrite array_set_get. eauto.
    + rewrite array_set_get_ne by done. auto.
Qed.

Lemma fill_items_lookup (m : gmap Z bool) (v : bool) (l : list Z) (i : Z) :
  foldr (λ i m, <[i := v]> m) m l !! i =
  if bool_decide (i ∈ l) then Some v else m !! i.
Proof.
  induction l as [|x l IH]; cbn.
  - rewrite bool_decide_eq_false_2; [done | apply not_elem_of_nil].
  - destruct (decide (x = i)) as [->|Hne].
    + rewrite lookup_insert_eq, bool_decide_eq_true_2; [done | left].
    + rewrite lookup_insert_ne, IH by done.
      rewrite (bool_decide_ext (i ∈ x :: l) (i ∈ l)); [done|].
      rewrite elem_of_cons. intuition congruence.
Qed.

Lemma array_fill_get a v i :
  array_get (array_fill a v) i =
  if bool_decide (0 ≤ i < arr_length a) then Some v else array_get a i.
Proof.
  unfold array_get, array_fill; cbn. rewrite fill_items_lookup.
  rewrite (bool_decide_ext (i ∈ seqZ 0 (arr_length a)) (0 ≤ i < arr_length a));
    [done|].
  rewrite elem_of_seqZ. lia.
Qed.

Lemma array_fill_row_ok a v : row_ok a → row_ok (array_fill a v).
Proof.
  intros [Hlen Hcells]. split; [done|].
  intros s Hs. rewrite array_fill_get. case_bool_decide; eauto.
Qed.

Lemma array_set_involutive a i x :
  array_get a i = Some x → 0 ≤ i < arr_length a →
  array_set (array_set a i (negb x)) i (negb (negb x)) = a.
Proof.
  intros Hget Hi. destruct a as [m n]. unfold array_get in Hget.
  unfold array_set; cbn in *.
  rewrite insert_insert_eq, negb_involutive, (insert_id m i x) by done.
  f_equal. destruct (is_index i); lia.
Qed.

(** ** The invariant is kept by assignments to single fields *)

Section wf_fields.
Context (b : BeatMaker) (Hwf : wf b).

Lemma wf_set_voices vs : wf (set_voices vs b).
Proof. destruct Hwf; by split. Qed.

Lemma wf_set_tempo t : wf (set_tempo t b).
Proof. destruct Hwf; by split. Qed.

Lemma wf_set_mutedTracks ms : wf (set_mutedTracks ms b).
Proof. destruct Hwf; by split. Qed.

Lemma wf_set_currentStep n : 0 ≤ n < steps → wf (set_currentStep n b).
Proof. destruct Hwf; by split. Qed.

Lemma wf_set_stepBtns_fmap f : wf (set_stepBtns (f <$> stepBtns b) b).
Proof.
  destruct Hwf; split; try done. cbn. intros t s.
  rewrite lookup_fmap, fmap_is_Some. auto.
Qed.

Lemma wf_set_stepBtns_insert t s c :
  is_Some (stepBtns b !! (t, s)) →
  wf (set_stepBtns (<[(t, s) := c]> (stepBtns b)) b).
Proof.
  intros Hin. destruct Hwf; split; try done. cbn. intros t' s'.
  rewrite lookup_insert_is_Some', <- wf_btns0. split; [|tauto].
  intros [Heq|?]; [|done]. by inversion Heq; subst.
Qed.

Lemma wf_set_muteBtns_insert t v :
  is_Some (muteBtns b !! t) → wf (set_muteBtns (<[t := v]> (muteBtns b)) b).
Proof.
  intros Hin. destruct Hwf; split; try done. cbn. intros t'.
  rewrite lookup_insert_is_Some', <- wf_mute_btns0. split; [|tauto].
  intros [->|?]; done.
Qed.

Lemma wf_set_pattern_insert t a :
  t ∈ tracks → row_ok a → wf (set_pattern (<[t := a]> (pattern b)) b).
Proof.
  intros Ht Ha. destruct Hwf; split; try done; cbn.
  - intros t' Ht'. destruct (decide (t = t')) as [->|Hne].
    + rewrite lookup_insert_eq. eauto.
    + rewrite lookup_insert_ne by done. auto.
  - intros t'. rewrite lookup_insert_is_Some'. intros [->|?]; auto.
Qed.

Lemma wf_set_soundConfig_insert t c d :
  decay c = Some d ∨ t ∉ tracks →
  wf (set_soundConfig (<[t := c]> (soundConfig b)) b).
Proof.
  intros Hc. destruct Hwf; split; try done; cbn.
  intros t' Ht'. destruct (decide (t = t')) as [->|Hne].
  - rewrite lookup_insert_eq. destruct Hc; [eauto | done].
  - rewrite lookup_insert_ne by done. auto.
Qed.

Lemma wf_set_timers playing iid tm next :
  timers_ok playing iid tm next →
  wf (set_intervalId iid (set_timers tm next (set_isPlaying playing b))).
Proof. intros. destruct Hwf; by split. Qed.

End wf_fields.

Lemma timers_ok_stopped next : timers_ok false None ∅ next.
Proof.
  split; [right; done|]. intros id. rewrite lookup_empty. by intros [? ?].
Qed.

Lemma timers_ok_started iv next :
  timers_ok true (Some next) (<[next := iv]> ∅) (Pos.succ next).
Proof.
  split.
  - left. split; [done|]. exists next, iv. by rewrite insert_empty.
  - intros id. rewrite lookup_insert_is_Some', lookup_empty.
    intros [->|[? ?]]; [lia | done].
Qed.

Lemma timers_ok_cancel playing id tm next :
  timers_ok playing (Some id) tm next → delete id tm = ∅.
Proof.
  intros [[(_ & id' & iv & Heq & ->)|(_ & ? & _)] _]; [|done].
  inversion Heq; subst. apply delete_singleton_eq.
Qed.

(** ** The methods in closed form *)

Lemma pause_eq b :
  pause b =
  Ok tt (set_stepBtns (with_current false <$> stepBtns b)
          (set_intervalId None
            (set_timers (cancel (intervalId b) (timers b)) (nextTimerId b)
              (set_isPlaying false b)))).
Proof. unfold pause. mred. by destruct (intervalId b). Qed.

Lemma play_eq b :
  play b =
  Ok tt (set_intervalId (Some (nextTimerId b))
          (set_timers (<[nextTimerId b := interval_of (tempo b)]> (timers b))
                      (Pos.succ (nextTimerId b))
            (set_isPlaying true b))).
Proof. reflexivity. Qed.

Lemma stop_eq b : stop b = Ok tt (set_currentStep 0 (run pause b)).
Proof. unfold stop. mred. by rewrite pause_eq. Qed.

Lemma updateTempo_eq v b :
  updateTempo v b =
  Ok tt (if isPlaying b then
           set_intervalId (Some (nextTimerId b))
             (set_timers
                (<[nextTimerId b := interval_of (parseInt v)]>
                   (cancel (intervalId b) (timers b)))
                (Pos.succ (nextTimerId b))
                (set_tempo (parseInt v) b))
         else set_tempo (parseInt v) b).
Proof.
  unfold updateTempo. mred. destruct (isPlaying b); [|done].
  by destruct (intervalId b).
Qed.

Lemma changeSound_eq t v b :
  changeSound t v b =
  Ok tt (match variations !! v with
         | Some x =>
             set_soundConfig
               (<[t := spread (soundConfig b !! t) x]> (soundConfig b)) b
         | None => b
         end).
Proof. unfold changeSound. by destruct (variations !! v). Qed.

Lemma timers_ok_cancelled playing iid tm next :
  timers_ok playing iid tm next → cancel iid tm = ∅.
Proof.
  destruct iid as [id|]; cbn.
  - apply timers_ok_cancel.
  - by intros [[(_ & ? & ? & ? & _)|(_ & _ & ?)] _].
Qed.

Lemma wf_pause b : wf b → wf (run pause b).
Proof.
  intros Hwf. unfold run. rewrite pause_eq. mred. wf_fields Hwf.
  - intros t s. rewrite lookup_fmap, fmap_is_Some. apply Hwf.
  - rewrite (timers_ok_cancelled _ _ _ _ (wf_timers _ Hwf)).
    apply timers_ok_stopped.
Qed.

Lemma wf_play b : wf b → isPlaying b = false → wf (run play b).
Proof.
  intros Hwf Hp. unfold run. rewrite play_eq. mred. wf_fields Hwf.
  destruct (wf_timers _ Hwf) as [[(? & _)|(_ & _ & ->)] _]; [congruence|].
  apply timers_ok_started.
Qed.

Lemma wf_togglePlay b : wf b → wf (run togglePlay b).
Proof.
  intros Hwf. unfold run, togglePlay. mred.
  destruct (isPlaying b) eqn:Hp; [by apply wf_pause | by apply wf_play].
Qed.

Lemma wf_stop b : wf b → wf (run stop b).
Proof.
  intros Hwf. unfold run. rewrite stop_eq. mred.
  apply wf_set_currentStep; [by apply wf_pause | done].
Qed.

Lemma wf_updateTempo v b : wf b → wf (run (updateTempo v) b).
Proof.
  intros Hwf. unfold run. rewrite updateTempo_eq.
  destruct (isPlaying b) eqn:Hp; cbn [final]; [|by apply wf_set_tempo].
  mred. wf_fields Hwf.
  rewrite (timers_ok_cancelled _ _ _ _ (wf_timers _ Hwf)), Hp.
  apply timers_ok_started.
Qed.

Lemma wf_changeSound t v b : wf b → wf (run (changeSound t v) b).
Proof.
  intros Hwf. unfold run. rewrite changeSound_eq.
  destruct (variations !! v) as [x|]; cbn [final]; [|done].
  destruct (decide (t ∈ tracks)) as [Ht|Ht].
  - destruct (wf_sounds _ Hwf t Ht) as (c & d & Hc & Hd).
    apply (wf_set_soundConfig_insert _ Hwf _ _ d). left.
    by rewrite Hc; cbn.
  - apply (wf_set_soundConfig_insert _ Hwf _ _ 0%Q). by right.
Qed.

(** *** [playSound] and [toggleStep] *)

Lemma playSound_eq t c d b :
  soundConfig b !! t = Some c → decay c = Some d →
  playSound t b = Ok tt (sounded t c d b).
Proof.
  intros Hc Hd. unfold playSound, sounded. mred.
  destruct (audioContext b) eqn:Ha; cbn; [|done].
  rewrite Hc, Hd. cbv beta iota. by rewrite Ha.
Qed.

Lemma playSound_silent t b :
  audioContext b = false → playSound t b = Ok tt b.
Proof. intros Ha. unfold playSound. mred. by rewrite Ha. Qed.

Lemma wf_sounded t c d b : wf b → wf (sounded t c d b).
Proof.
  intros Hwf. unfold sounded. destruct (audioContext b); [|done].
  by apply wf_set_voices.
Qed.

Lemma toggleStep_unknown t s b :
  pattern b !! t = None → toggleStep t s b = Throw TypeError b.
Proof. intros Hp. unfold toggleStep. mred. by rewrite Hp. Qed.

Lemma toggleStep_no_button t s a b :
  pattern b !! t = Some a → stepBtns b !! (t, s) = None →
  toggleStep t s b = Throw TypeError (flipped t s a b).
Proof.
  intros Hp Hb. unfold toggleStep, flipped.
  by mrun ltac:(rewrite ?Hp, ?lookup_insert_eq, ?Hb).
Qed.

Lemma toggleStep_button t s a c b :
  pattern b !! t = Some a → stepBtns b !! (t, s) = Some c →
  toggleStep t s b =
  if negb (truthy (array_get a s))
  then playSound t (shown t s a c b)
  else Ok tt (shown t s a c b).
Proof.
  intros Hp Hb. unfold toggleStep, shown, flipped.
  mrun ltac:(rewrite ?Hp, ?lookup_insert_eq, ?Hb, ?array_set_get).
  cbn [truthy default].
  by destruct (negb (truthy (array_get a s))).
Qed.

Lemma wf_flipped t s a b :
  wf b → pattern b !! t = Some a → wf (flipped t s a b).
Proof.
  intros Hwf Hp. apply wf_set_pattern_insert; [done| |].
  - apply (wf_rows_only _ Hwf). eauto.
  - apply array_set_row_ok.
    destruct (wf_rows _ Hwf t) as (a' & Ha' & Hok).
    + apply (wf_rows_only _ Hwf). eauto.
    + congruence.
Qed.

Lemma wf_shown t s a c b :
  wf b → pattern b !! t = Some a → stepBtns b !! (t, s) = Some c →
  wf (shown t s a c b).
Proof.
  intros Hwf Hp Hb. unfold shown.
  apply (wf_set_stepBtns_insert _ (wf_flipped t s a b Hwf Hp)).
  cbn. eauto.
Qed.

Lemma wf_toggleStep t s b : wf b → wf (run (toggleStep t s) b).
Proof.
  intros Hwf. unfold run.
  destruct (pattern b !! t) as [a|] eqn:Hp.
  2: { by rewrite toggleStep_unknown. }
  destruct (stepBtns b !! (t, s)) as [c|] eqn:Hb.
  2: { rewrite (toggleStep_no_button _ _ a) by done. by apply wf_flipped. }
  rewrite (toggleStep_button _ _ a c) by done.
  pose proof (wf_shown t s a c b Hwf Hp Hb) as Hwf'.
  destruct (negb (truthy (array_get a s))); [|done].
  destruct (wf_sounds _ Hwf t) as (cfg & d & Hc & Hd).
  { apply (wf_rows_only _ Hwf). eauto. }
  rewrite (playSound_eq _ cfg d) by done. by apply wf_sounded.
Qed.

(** *** [toggleMute] *)

Lemma wf_toggleMute t b : wf b → wf (run (toggleMute t) b).
Proof.
  intros Hwf. unfold run, toggleMute. mred.
  destruct (muteBtns b !! t) as [m|] eqn:Hm;
    case_bool_decide; cbn [final].
  - apply (wf_set_muteBtns_insert _ (wf_set_mutedTracks b Hwf _)). cbn. eauto.
  - apply (wf_set_muteBtns_insert _ (wf_set_mutedTracks b Hwf _)). cbn. eauto.
  - by apply wf_set_mutedTracks.
  - by apply wf_set_mutedTracks.
Qed.

(** *** Loops *)

Lemma forEach_inv {A} (I : list A → BeatMaker → Prop) (f : A → M unit)
    (l : list A) :
  (∀ pre x b, x ∈ l → I pre b → ∃ b', f x b = Ok tt b' ∧ I (pre ++ [x]) b') →
  ∀ pre b, I pre b → ∃ b', forEach l f b = Ok tt b' ∧ I (pre ++ l) b'.
Proof.
  induction l as [|x r IH]; intros Hf pre b HI.
  - exists b. by rewrite app_nil_r.
  - destruct (Hf pre x b) as (b1 & Hx & HI1); [left | done |].
    destruct (IH (λ pre' x' b' Hin, Hf pre' x' b' (list_elem_of_further _ _ _ Hin))
                 (pre ++ [x]) b1 HI1) as (b2 & Hr & HI2).
    exists b2. split.
    + cbn. unfold mbind, M_bind. by rewrite Hx.
    + by rewrite <- app_assoc in HI2.
Qed.

(** *** [playStep] *)

Lemma visit_eq t a c b :
  pattern b !! t = Some a → stepBtns b !! (t, currentStep b) = Some c →
  visit t b =
  if fires b t then playSound t (highlighted t c b)
  else Ok tt (highlighted t c b).
Proof.
  intros Hp Hb. unfold visit, fires, isActive, isMuted, highlighted.
  mrun ltac:(rewrite ?Hp, ?Hb). cbn [mbind option_bind].
  by destruct (truthy (array_get a (currentStep b)) &&
               negb (bool_decide (t ∈ mutedTracks b))).
Qed.

Lemma tick_voices_snoc b l t :
  tick_voices b (l ++ [t]) =
  tick_voices b l ++
  (if audioContext b && fires b t
   then match voice_for b t with Some v => [v] | None => [] end
   else []).
Proof.
  unfold tick_voices. destruct (audioContext b); cbn [andb]; [|done].
  rewrite list.filter_app, omap_app. f_equal.
  rewrite list.filter_cons, list.filter_nil. case_decide as Hf.
  - rewrite Hf. cbn. by destruct (voice_for b t).
  - apply not_true_is_false in Hf. by rewrite Hf.
Qed.

Lemma visit_ticking b0 pre t b :
  t ∈ tracks → ticking b0 pre b →
  ∃ b', visit t b = Ok tt b' ∧ ticking b0 (pre ++ [t]) b'.
Proof.
  intros Ht (Hwf & Hcur & Hpat & Htr & Hset & Hvs).
  destruct (wf_rows _ Hwf t Ht) as (a & Ha & _).
  destruct (proj2 (wf_btns _ Hwf t (currentStep b))) as [c Hc].
  { split; [done | apply Hwf]. }
  destruct (wf_sounds _ Hwf t Ht) as (cfg & d & Hcfg & Hd).
  assert (wf (highlighted t c b)) as Hwf1.
  { apply wf_set_stepBtns_insert; [done | eauto]. }
  assert (fires b t = fires b0 t) as Hfires.
  { unfold fires, isActive, isMuted. rewrite Hcur, Hpat.
    by injection Hset as -> _ _ _. }
  assert (voice_for b0 t = Some (voice_of t cfg d)) as Hvoice.
  { unfold voice_for. injection Hset as _ _ <- _. by rewrite Hcfg; cbn; rewrite Hd. }
  rewrite (visit_eq t a c) by done. unfold ticking.
  rewrite tick_voices_snoc, Hvoice, <- Hfires.
  destruct (fires b t); rewrite ?andb_false_r, ?andb_true_r.
  - rewrite (playSound_eq t cfg d) by done. eexists; split; [done|].
    unfold sounded. cbn [audioContext highlighted set_stepBtns].
    assert (audioContext b = audioContext b0) as Haud
      by (by injection Hset as _ -> _ _).
    rewrite <- Haud.
    destruct (audioContext b) eqn:Hon.
    + split; [by apply wf_set_voices|]. cbn. rewrite Hvs, <- app_assoc.
      repeat split; done.
    + split; [done|]. cbn. rewrite Hvs, app_nil_r.
      repeat split; done.
  - eexists; split; [done|]. split; [done|]. cbn.
    by rewrite Hvs, app_nil_r.
Qed.

Lemma forEach_visit b :
  wf b → ∃ b', forEach tracks visit b = Ok tt b' ∧ ticking b tracks b'.
Proof.
  intros Hwf.
  apply (forEach_inv (ticking b) visit tracks
           (λ pre x b1 Hin, visit_ticking b pre x b1 Hin) [] b).
  do 5 (split; [done|]).
  unfold tick_voices. destruct (audioContext b); cbn; by rewrite app_nil_r.
Qed.

Lemma step_rem n : 0 ≤ n < steps → Z.rem (n + 1) steps = (n + 1) mod steps.
Proof. intros. apply Z.rem_mod_nonneg; unfold steps in *; lia. Qed.

(** A tick from a state that satisfies the invariant. *)
Lemma playStep_ok b :
  wf b →
  ∃ b', playStep b = Ok tt b' ∧ wf b' ∧
    currentStep b' = (currentStep b + 1) mod steps ∧
    pattern b' = pattern b ∧ transport b' = transport b ∧
    settings b' = settings b ∧
    voices b' = voices b ++ tick_voices b tracks.
Proof.
  intros Hwf. unfold playStep.
  pose (b0 := set_stepBtns (with_current false <$> stepBtns b) b).
  assert (wf b0) as Hwf0 by (by apply wf_set_stepBtns_fmap).
  destruct (forEach_visit b0 Hwf0) as (b1 & Hloop & Hwf1 & Hcur & Hpat & Htr & Hset & Hvs).
  exists (set_currentStep (Z.rem (currentStep b1 + 1) steps) b1).
  split.
  { unfold mbind, M_bind at 1 2.
    change (clearCurrentStepHighlight b) with (Ok tt b0).
    cbv beta iota. by rewrite Hloop. }
  pose proof (wf_step _ Hwf) as Hstep.
  change (currentStep b0) with (currentStep b) in Hcur.
  rewrite Hcur, step_rem by done.
  split.
  { apply wf_set_currentStep; [done|]. apply Z.mod_pos_bound. done. }
  cbn. by repeat split.
Qed.

Lemma wf_playStep b : wf b → wf (run playStep b).
Proof.
  intros Hwf. destruct (playStep_ok b Hwf) as (b' & Heq & Hwf' & _).
  unfold run. by rewrite Heq.
Qed.

(** *** [clearAll] *)

Lemma array_fill_cleared a : cleared (array_fill a false).
Proof.
  intros s Hs. rewrite array_fill_get. cbn in Hs.
  by rewrite bool_decide_eq_true_2.
Qed.

Lemma wipe_clearing b0 pre t b :
  t ∈ tracks → clearing b0 pre b →
  ∃ b', wipe t b = Ok tt b' ∧ clearing b0 (pre ++ [t]) b'.
Proof.
  intros Ht (Hwf & Hcur & Htr & Hset & Hvs & Hbtns & Hpre).
  destruct (wf_rows _ Hwf t Ht) as (a & Ha & Hok).
  exists (set_pattern (<[t := array_fill a false]> (pattern b)) b). split.
  { unfold wipe. by mrun ltac:(rewrite ?Ha). }
  split.
  { apply wf_set_pattern_insert; [done..|]. by apply array_fill_row_ok. }
  repeat split; try done. cbn. intros t' Ht'.
  destruct (decide (t = t')) as [<-|Hne].
  - rewrite lookup_insert_eq. eexists; split; [done|]. apply array_fill_cleared.
  - rewrite lookup_insert_ne by done. apply Hpre.
    apply elem_of_app in Ht' as [?|Ht']; [done|].
    apply list_elem_of_singleton in Ht'. congruence.
Qed.

Lemma forEach_wipe b :
  wf b → ∃ b', forEach tracks wipe b = Ok tt b' ∧ clearing b tracks b'.
Proof.
  intros Hwf.
  apply (forEach_inv (clearing b) wipe tracks
           (λ pre x b1 Hin, wipe_clearing b pre x b1 Hin) [] b).
  do 6 (split; [done|]). intros t Ht. by apply elem_of_nil in Ht.
Qed.

(** [clearAll] from a state that satisfies the invariant. *)
Lemma clearAll_ok b :
  wf b →
  ∃ b1 b', forEach tracks wipe b = Ok tt b1 ∧
    clearAll b =
      stop (set_stepBtns (with_active false <$> stepBtns b1) b1) ∧
    clearAll b = Ok tt b' ∧ wf b' ∧
    (∀ t, t ∈ tracks → ∃ a, pattern b' !! t = Some a ∧ cleared a ∧ row_ok a) ∧
    currentStep b' = 0 ∧ isPlaying b' = false ∧
    intervalId b' = None ∧ timers b' = ∅ ∧
    tempo b' = tempo b ∧ settings b' = settings b ∧ voices b' = voices b.
Proof.
  intros Hwf.
  destruct (forEach_wipe b Hwf) as (b1 & Hloop & Hwf1 & Hcur & Htr & Hset & Hvs & Hbtns & Hrows).
  pose (b2 := set_stepBtns (with_active false <$> stepBtns b1) b1).
  assert (wf b2) as Hwf2 by (by apply wf_set_stepBtns_fmap).
  assert (clearAll b = stop b2) as Hstop.
  { unfold clearAll. unfold mbind, M_bind at 1. by rewrite Hloop. }
  exists b1, (run stop b2). split; [done|]. split; [done|].
  rewrite Hstop. split.
  { unfold run. by rewrite stop_eq. }
  split; [by apply wf_stop|].
  unfold run. rewrite stop_eq. unfold run. rewrite pause_eq. cbn.
  rewrite (timers_ok_cancelled _ _ _ _ (wf_timers _ Hwf1)).
  split.
  { intros t Ht. destruct (Hrows t Ht) as (a & Ha & Hcl).
    destruct (wf_rows _ Hwf1 t Ht) as (a' & Ha' & Hok).
    assert (a' = a) as -> by congruence. eauto. }
  repeat split; try done.
  by injection Htr as _ -> _ _ _.
Qed.

Lemma wf_clearAll b : wf b → wf (run clearAll b).
Proof.
  intros Hwf.
  destruct (clearAll_ok b Hwf) as (b1 & b' & _ & _ & Heq & Hwf' & _).
  unfold run. by rewrite Heq.
Qed.

(** *** The constructor and reachable states *)

Lemma list_to_map_is_Some `{Countable K} {V} (l : list (K * V)) (k : K) :
  is_Some ((list_to_map l : gmap K V) !! k) ↔ k ∈ l.*1.
Proof.
  rewrite <- not_eq_None_Some.
  pose proof (not_elem_of_list_to_map (M := gmap K) l k) as Hnone.
  destruct (decide (k ∈ l.*1)); tauto.
Qed.

Lemma elem_of_tracks t :
  t ∈ tracks ↔ t = "kick" ∨ t = "snare" ∨ t = "hihat" ∨ t = "crash".
Proof.
  unfold tracks. rewrite !elem_of_cons, elem_of_nil. tauto.
Qed.

Lemma wf_constructor audio : wf (constructor audio).
Proof.
  split; cbn [constructor currentStep isPlaying tempo intervalId pattern
              mutedTracks audioContext soundConfig timers nextTimerId
              stepBtns muteBtns voices].
  - unfold steps; lia.
  - intros t Ht. exists (array_fill (array_new steps) false). split.
    + apply elem_of_tracks in Ht as [-> | [-> | [-> | ->]]]; reflexivity.
    + split; [done|].
      intros s Hs. rewrite array_fill_get. cbn.
      rewrite bool_decide_eq_true_2 by done. eauto.
  - intros t. rewrite list_to_map_is_Some, <- list_fmap_compose.
    by rewrite list_fmap_id.
  - intros t Ht.
    apply elem_of_tracks in Ht as [-> | [-> | [-> | ->]]]; by do 2 eexists.
  - intros t s. unfold generateSteps. rewrite list_to_map_is_Some.
    rewrite list_elem_of_fmap. split.
    + intros ([[t' s'] c] & Heq & Hin). cbn in Heq. inversion Heq; subst t' s'.
      apply list_elem_of_bind in Hin as (t1 & Hin & Ht1).
      apply list_elem_of_bind in Hin as (s1 & Hin & Hs1).
      apply list_elem_of_singleton in Hin. inversion Hin; subst.
      apply elem_of_seqZ in Hs1. split; [done | lia].
    + intros [Ht Hs]. exists ((t, s), Classes false false). split; [done|].
      apply list_elem_of_bind. exists t. split; [|done].
      apply list_elem_of_bind. exists s. split; [by left|].
      apply elem_of_seqZ. lia.
  - intros t. rewrite list_to_map_is_Some, <- list_fmap_compose.
    by rewrite list_fmap_id.
  - apply timers_ok_stopped.
Qed.

Lemma wf_exec c b : wf b → wf (run (exec c) b).
Proof.
  intros Hwf. destruct c; cbn [exec].
  - by apply wf_togglePlay.
  - by apply wf_pause.
  - by apply wf_stop.
  - by apply wf_clearAll.
  - by apply wf_updateTempo.
  - by apply wf_toggleMute.
  - by apply wf_changeSound.
  - by apply wf_toggleStep.
  - unfold run. mred. destruct (timers b !! id); [by apply wf_playStep | done].
Qed.

Lemma reachable_wf b : reachable b → wf b.
Proof.
  induction 1 as [audio | b c _ IH]; [apply wf_constructor | by apply wf_exec].
Qed.

(** ** [parseInt] reads decimal numerals back *)

Lemma digits_uint d acc :
  digits 10 (NilEmpty.string_of_uint d) (Some acc) = Some (uint_value d acc).
Proof.
  revert acc.
  induction d as [|d IH|d IH|d IH|d IH|d IH|d IH|d IH|d IH|d IH|d IH];
    intros acc; cbn [NilEmpty.string_of_uint digits uint_value];
    [done | eval_digit; apply IH ..].
Qed.

Lemma uint_value_pos d p :
  uint_value d (Z.pos p) = Z.pos (Pos.of_uint_acc d p).
Proof.
  revert p.
  induction d as [|d IH|d IH|d IH|d IH|d IH|d IH|d IH|d IH|d IH|d IH];
    intros p; cbn [uint_value Pos.of_uint_acc]; [done | rewrite <- IH; f_equal; lia ..].
Qed.

Lemma uint_value_0 d : uint_value d 0 = Z.of_uint d.
Proof.
  unfold Z.of_uint.
  induction d as [|d IH|d IH|d IH|d IH|d IH|d IH|d IH|d IH|d IH|d IH];
    cbn [uint_value Pos.of_uint]; [done | exact IH | apply uint_value_pos ..].
Qed.

Lemma magnitude_uint d :
  magnitude (NilZero.string_of_uint d) = Some (Z.of_uint d).
Proof.
  rewrite <- uint_value_0. unfold magnitude.
  destruct d as [|d|d|d|d|d|d|d|d|d|d]; [done | ..];
    cbn [NilZero.string_of_uint NilEmpty.string_of_uint].
  1: destruct d; cbn [NilEmpty.string_of_uint strip_radix digits uint_value];
       [done | repeat (eval_digit; cbn [digits default]);
               apply digits_uint ..].
  all: cbn [strip_radix digits uint_value]; eval_digit; apply digits_uint.
Qed.

Lemma parseInt_uint d :
  parseInt (NilZero.string_of_uint d) = to_number 1 (Z.of_uint d).
Proof.
  assert (∀ s, s = NilZero.string_of_uint d →
            strip_sign (trim_start s) = (1, s)) as Hhead.
  { intros s ->. by destruct d. }
  unfold parseInt. by rewrite (Hhead _ eq_refl), magnitude_uint.
Qed.

Lemma parseInt_minus_uint d :
  parseInt (String "-" (NilZero.string_of_uint d)) =
  to_number (-1) (Z.of_uint d).
Proof.
  assert (∀ s, strip_sign (trim_start (String "-" s)) = (-1, s)) as Hsign
    by done.
  unfold parseInt. by rewrite Hsign, magnitude_uint.
Qed.

Lemma to_number_exact sign n :
  0 < n ≤ max_exact → to_number sign n = of_Z (sign * n).
Proof.
  intros [Hpos Hle]. unfold to_number.
  rewrite (proj2 (Z.eqb_neq n 0)) by lia. cbn [andb].
  by rewrite (proj2 (Z.leb_le n max_exact)).
Qed.

Lemma parseInt_decimal z :
  - max_exact ≤ z ≤ max_exact → parseInt (decimal z) = of_Z z.
Proof.
  intros Hz. destruct z as [|p|p].
  - reflexivity.
  - change (decimal (Z.pos p)) with (NilZero.string_of_uint (Pos.to_uint p)).
    rewrite parseInt_uint.
    change (Z.of_uint (Pos.to_uint p)) with (Z.of_int (Z.to_int (Z.pos p))).
    rewrite DecimalZ.of_to, to_number_exact by lia. f_equal; lia.
  - change (decimal (Z.neg p))
      with (String "-" (NilZero.string_of_uint (Pos.to_uint p))).
    rewrite parseInt_minus_uint.
    change (Z.of_uint (Pos.to_uint p)) with (Z.of_int (Z.to_int (Z.pos p))).
    rewrite DecimalZ.of_to, to_number_exact by lia. f_equal; lia.
Qed.

(** ** Toggling a step *)

Lemma isActive_cell b t s : isActive b t s = truthy (cell b t s).
Proof. reflexivity. Qed.

Lemma sounded_voices t c d b :
  voices (sounded t c d b) =
  voices b ++ (if audioContext b then [voice_of t c d] else []).
Proof.
  unfold sounded. destruct (audioContext b); cbn; by rewrite ?app_nil_r.
Qed.

Lemma sounded_rest t c d b :
  currentStep (sounded t c d b) = currentStep b ∧
  pattern (sounded t c d b) = pattern b ∧
  transport (sounded t c d b) = transport b ∧
  settings (sounded t c d b) = settings b ∧
  stepBtns (sounded t c d b) = stepBtns b.
Proof. unfold sounded. by destruct (audioContext b) eqn:Hon. Qed.

Lemma cell_flipped t s a b t' s' :
  pattern b !! t = Some a → (t', s') ≠ (t, s) →
  cell (flipped t s a b) t' s' = cell b t' s'.
Proof.
  intros Ha Hne. unfold cell, flipped. cbn.
  destruct (decide (t = t')) as [<-|Ht].
  - rewrite lookup_insert_eq, Ha. cbn.
    apply array_set_get_ne. congruence.
  - by rewrite lookup_insert_ne.
Qed.

Lemma cell_flipped_eq t s a b :
  cell (flipped t s a b) t s = Some (negb (truthy (array_get a s))).
Proof.
  unfold cell, flipped. cbn. rewrite lookup_insert_eq. cbn.
  apply array_set_get.
Qed.

(** A toggle of a cell of the grid, from a state that satisfies the
    invariant: the state it reaches, in closed form. *)
Lemma toggleStep_in_range t s b :
  wf b → t ∈ tracks → 0 ≤ s < steps →
  ∃ a x c cfg d,
    pattern b !! t = Some a ∧ array_get a s = Some x ∧
    0 ≤ s < arr_length a ∧
    stepBtns b !! (t, s) = Some c ∧
    soundConfig b !! t = Some cfg ∧ decay cfg = Some d ∧
    toggleStep t s b =
      Ok tt (if negb x then sounded t cfg d (shown t s a c b)
             else shown t s a c b).
Proof.
  intros Hwf Ht Hs.
  destruct (wf_rows _ Hwf t Ht) as (a & Ha & Hlen & Hcells).
  destruct (Hcells s Hs) as [x Hx].
  destruct (proj2 (wf_btns _ Hwf t s) (conj Ht Hs)) as [c Hc].
  destruct (wf_sounds _ Hwf t Ht) as (cfg & d & Hcfg & Hd).
  exists a, x, c, cfg, d. do 2 (split; [done|]). split; [lia|].
  do 3 (split; [done|]).
  rewrite (toggleStep_button t s a c) by done. rewrite Hx.
  change (truthy (Some x)) with x.
  destruct (negb x); [|done]. by apply playSound_eq.
Qed.

(** C1, as the code has it: [toggleStep] checks nothing and knows no
    error of its own.  With a track that is not one of the four it throws a
    [TypeError] and the state is as before.  With a known track and a step
    outside the grid it throws a [TypeError] too; the current step, the
    transport, the settings, the buttons, the sounds begun and every cell
    of the grid are as before.  With a track and a step of the grid it
    returns (no value), the cell is flipped and shown by the class of its
    button, and every other cell, the current step, the transport and the
    settings are as before. *)
Theorem toggleStep_no_validation (t : string) (s : Z) (b : BeatMaker) :
  reachable b →
  (t ∉ tracks → toggleStep t s b = Throw TypeError b) ∧
  (t ∈ tracks → ¬ 0 ≤ s < steps →
     ∃ b', toggleStep t s b = Throw TypeError b' ∧
       currentStep b' = currentStep b ∧ transport b' = transport b ∧
       settings b' = settings b ∧ stepBtns b' = stepBtns b ∧
       voices b' = voices b ∧
       ∀ t' s', 0 ≤ s' < steps → cell b' t' s' = cell b t' s') ∧
  (t ∈ tracks → 0 ≤ s < steps →
     ∃ b', toggleStep t s b = Ok tt b' ∧
       isActive b' t s = negb (isActive b t s) ∧
       shown_active b' t s = Some (isActive b' t s) ∧
       (∀ t' s', (t', s') ≠ (t, s) → cell b' t' s' = cell b t' s') ∧
       currentStep b' = currentStep b ∧ transport b' = transport b ∧
       settings b' = settings b).
Proof.
  intros Hwf%reachable_wf. split; [|split].
  - intros Ht. apply toggleStep_unknown.
    destruct (pattern b !! t) eqn:Hp; [|done].
    destruct Ht. apply (wf_rows_only _ Hwf). eauto.
  - intros Ht Hs.
    destruct (wf_rows _ Hwf t Ht) as (a & Ha & _).
    exists (flipped t s a b). split.
    + apply toggleStep_no_button; [done|].
      destruct (stepBtns b !! (t, s)) eqn:Hb; [|done].
      destruct Hs. apply (wf_btns _ Hwf t s). eauto.
    + do 5 (split; [done|]). intros t' s' Hs'.
      apply cell_flipped; [done|]. intros [= -> ->]. done.
  - intros Ht Hs.
    destruct (toggleStep_in_range t s b Hwf Ht Hs)
      as (a & x & c & cfg & d & Ha & Hx & _ & Hc & _ & _ & ->).
    eexists; split; [done|].
    assert (isActive b t s = x) as ->.
    { unfold isActive. by rewrite Ha; cbn; rewrite Hx. }
    pose proof (sounded_rest t cfg d (shown t s a c b))
      as (Hcur & Hpat & Htr & Hset & Hbtn).
    assert (∀ b', pattern b' = pattern (flipped t s a b) →
              stepBtns b' = stepBtns (shown t s a c b) →
              isActive b' t s = negb x ∧
              shown_active b' t s = Some (negb x) ∧
              ∀ t' s', (t', s') ≠ (t, s) → cell b' t' s' = cell b t' s')
      as Hcells.
    { intros b' Hp' Hb'. split; [|split].
      - rewrite isActive_cell. unfold cell. rewrite Hp'.
        fold (cell (flipped t s a b) t s).
        by rewrite cell_flipped_eq, Hx.
      - unfold shown_active. rewrite Hb'. cbn.
        by rewrite lookup_insert_eq, Hx.
      - intros t' s' Hne. unfold cell. rewrite Hp'.
        by apply cell_flipped. }
    destruct (negb x) eqn:Hnx.
    + destruct (Hcells _ Hpat Hbtn) as (-> & -> & Hrest).
      by rewrite Hcur, Htr, Hset.
    + destruct (Hcells (shown t s a c b) eq_refl eq_refl) as (-> & -> & Hrest).
      done.
Qed.

(** C1, as the spec has it, fails on the new object: a toggle one step
    past the end of the row of the kick throws, but the row has been
    written to before. *)
Lemma toggleStep_past_end_changes_pattern :
  "kick" ∈ tracks ∧ ¬ 0 ≤ 16 < steps ∧
  ∃ b', toggleStep "kick" 16 (constructor true) = Throw TypeError b' ∧
    cell (constructor true) "kick" 16 = None ∧
    cell b' "kick" 16 = Some true ∧
    pattern b' ≠ pattern (constructor true).
Proof.
  split; [by left|]. split; [unfold steps; lia|].
  exists (flipped "kick" 16 (array_fill (array_new steps) false)
            (constructor true)).
  split; [apply toggleStep_no_button; by vm_compute|].
  split; [done|]. split; [done|].
  intros Heq.
  apply (f_equal (λ p, a ← p !! "kick"; array_get a 16)) in Heq.
  vm_compute in Heq. discriminate.
Qed.

(** A toggle of a cell of the new object. *)
Lemma toggleStep_no_validation_witness :
  reachable (constructor true) ∧ "kick" ∈ tracks ∧ 0 ≤ 3 < steps ∧
  ∃ b', toggleStep "kick" 3 (constructor true) = Ok tt b' ∧
    isActive b' "kick" 3 = negb (isActive (constructor true) "kick" 3).
Proof.
  assert ("kick" ∈ tracks) as Ht by (by left).
  assert (0 ≤ 3 < steps) as Hs by (unfold steps; lia).
  split; [apply reach_new|]. split; [exact Ht|]. split; [exact Hs|].
  destruct (toggleStep_no_validation "kick" 3 (constructor true)
              (reach_new true)) as (_ & _ & Hin).
  destruct (Hin Ht Hs) as (b' & Heq & Hflip & _).
  exists b'. split; [exact Heq | exact Hflip].
Defined.

(** The effect of a toggle of a cell of the grid on the pattern and on the
    sounds begun. *)
Lemma toggleStep_effect t s b :
  wf b → t ∈ tracks → 0 ≤ s < steps →
  ∃ a x cfg d b',
    pattern b !! t = Some a ∧ array_get a s = Some x ∧
    0 ≤ s < arr_length a ∧
    soundConfig b !! t = Some cfg ∧ decay cfg = Some d ∧
    toggleStep t s b = Ok tt b' ∧ wf b' ∧
    pattern b' = <[t := array_set a s (negb x)]> (pattern b) ∧
    voices b' =
      voices b ++ (if negb x && audioContext b then [voice_of t cfg d] else []).
Proof.
  intros Hwf Ht Hs.
  destruct (toggleStep_in_range t s b Hwf Ht Hs)
    as (a & x & c & cfg & d & Ha & Hx & Hlen & Hc & Hcfg & Hd & Heq).
  eexists a, x, cfg, d, _. do 5 (split; [done|]). split; [exact Heq|].
  split.
  { pose proof (wf_toggleStep t s b Hwf) as Hwf'. unfold run in Hwf'.
    by rewrite Heq in Hwf'. }
  pose proof (sounded_rest t cfg d (shown t s a c b)) as (_ & Hpat & _).
  pose proof (sounded_voices t cfg d (shown t s a c b)) as Hvs.
  assert (pattern (shown t s a c b) =
          <[t := array_set a s (negb x)]> (pattern b)) as Hshown
    by (cbn; by rewrite Hx).
  destruct (negb x) eqn:Hnx; cbn [andb].
  - by rewrite Hpat, Hvs.
  - split; [done|]. cbn. by rewrite app_nil_r.
Qed.

(** C9: from a reachable state, two toggles of the same cell of the grid
    both return; the first flips the cell, the second flips it back, and
    the whole pattern is then what it was. *)
Theorem toggleStep_twice (t : string) (s : Z) (b : BeatMaker) :
  reachable b → t ∈ tracks → 0 ≤ s < steps →
  ∃ b1 b2,
    toggleStep t s b = Ok tt b1 ∧ toggleStep t s b1 = Ok tt b2 ∧
    isActive b1 t s = negb (isActive b t s) ∧
    isActive b2 t s = isActive b t s ∧
    pattern b2 = pattern b.
Proof.
  intros Hwf%reachable_wf Ht Hs.
  destruct (toggleStep_effect t s b Hwf Ht Hs)
    as (a & x & _ & _ & b1 & Ha & Hx & Hlen & _ & _ & Heq1 & Hwf1 & Hp1 & _).
  destruct (toggleStep_effect t s b1 Hwf1 Ht Hs)
    as (a1 & x1 & _ & _ & b2 & Ha1 & Hx1 & _ & _ & _ & Heq2 & _ & Hp2 & _).
  rewrite Hp1, lookup_insert_eq in Ha1. injection Ha1 as <-.
  rewrite array_set_get in Hx1. injection Hx1 as <-.
  assert (pattern b2 = pattern b) as Hback.
  { rewrite Hp2, Hp1, insert_insert_eq.
    rewrite (array_set_involutive a s x) by done. by apply insert_id. }
  exists b1, b2. do 2 (split; [done|]).
  unfold isActive. rewrite Hback, Hp1, lookup_insert_eq, Ha. cbn.
  by rewrite array_set_get, Hx.
Qed.

(** Two toggles of the last step of the hi-hat of the new object. *)
Lemma toggleStep_twice_witness :
  ∃ b1 b2,
    toggleStep "hihat" 15 (constructor true) = Ok tt b1 ∧
    toggleStep "hihat" 15 b1 = Ok tt b2 ∧
    pattern b2 = pattern (constructor true).
Proof.
  assert ("hihat" ∈ tracks) as Ht by (right; right; left).
  assert (0 ≤ 15 < steps) as Hs by (unfold steps; lia).
  destruct (toggleStep_twice "hihat" 15 (constructor true)
              (reach_new true) Ht Hs) as (b1 & b2 & H1 & H2 & _ & _ & Hp).
  exists b1, b2. split; [exact H1|]. split; [exact H2 | exact Hp].
Defined.

(** ** Mute and audition *)

Lemma voice_for_track b t :
  wf b → t ∈ tracks → ∃ v, voice_for b t = Some v ∧ v_track v = t.
Proof.
  intros Hwf Ht. destruct (wf_sounds _ Hwf t Ht) as (c & d & Hc & Hd).
  exists (voice_of t c d). split; [|done].
  unfold voice_for. by rewrite Hc; cbn; rewrite Hd.
Qed.

Lemma omap_voice_for b (l : list string) :
  wf b → (∀ t, t ∈ l → t ∈ tracks) →
  v_track <$> omap (voice_for b) l = l.
Proof.
  intros Hwf. induction l as [|t l IH]; intros Hl; [done|].
  destruct (voice_for_track b t Hwf) as (v & Hv & Htr); [apply Hl; left|].
  cbn. rewrite Hv. cbn. rewrite Htr, IH; [done|].
  intros t' Ht'. apply Hl. by right.
Qed.

Lemma tick_voices_tracks b :
  wf b → audioContext b = true →
  v_track <$> tick_voices b tracks = filter (λ t, fires b t = true) tracks.
Proof.
  intros Hwf Hon. unfold tick_voices. rewrite Hon.
  apply omap_voice_for; [done|]. intros t Ht.
  by apply list_elem_of_filter in Ht as [_ ?].
Qed.

Lemma tick_voices_silent b l : audioContext b = false → tick_voices b l = [].
Proof. intros Hoff. unfold tick_voices. by rewrite Hoff. Qed.

(** C8: from a reachable state with an audio context, and for a cell of
    the grid: a toggle that makes the cell active begins one sound of the
    track, whether the track is muted or not; a toggle that makes it
    inactive begins none; and a tick begins no sound of a muted track. *)
Theorem mute_only_on_playback (t : string) (s : Z) (b : BeatMaker) :
  reachable b → t ∈ tracks → 0 ≤ s < steps → audioContext b = true →
  (isActive b t s = false →
     ∃ b' v, toggleStep t s b = Ok tt b' ∧ isActive b' t s = true ∧
       voices b' = voices b ++ [v] ∧ v_track v = t ∧
       voice_for b t = Some v) ∧
  (isActive b t s = true →
     ∃ b', toggleStep t s b = Ok tt b' ∧ isActive b' t s = false ∧
       voices b' = voices b) ∧
  (isMuted b t = true →
     ∃ b' vs, playStep b = Ok tt b' ∧ voices b' = voices b ++ vs ∧
       t ∉ v_track <$> vs).
Proof.
  intros Hwf%reachable_wf Ht Hs Hon.
  destruct (toggleStep_effect t s b Hwf Ht Hs)
    as (a & x & cfg & d & b' & Ha & Hx & _ & Hcfg & Hd & Heq & _ & Hp & Hvs).
  assert (isActive b t s = x) as Hact.
  { unfold isActive. by rewrite Ha; cbn; rewrite Hx. }
  assert (isActive b' t s = negb x) as Hact'.
  { unfold isActive. rewrite Hp, lookup_insert_eq. cbn.
    by rewrite array_set_get. }
  rewrite Hon, andb_true_r in Hvs. rewrite Hact.
  split; [|split].
  - intros ->. exists b', (voice_of t cfg d).
    do 4 (split; [done|]). unfold voice_for. by rewrite Hcfg; cbn; rewrite Hd.
  - intros ->. exists b'. cbn in Hvs. by rewrite app_nil_r in Hvs.
  - intros Hmuted.
    destruct (playStep_ok b Hwf) as (b2 & Hplay & _ & _ & _ & _ & _ & Hvs2).
    exists b2, (tick_voices b tracks). do 2 (split; [done|]).
    rewrite tick_voices_tracks by done.
    intros Hin%list_elem_of_filter. destruct Hin as [Hf _].
    unfold fires in Hf. rewrite Hmuted, andb_false_r in Hf. done.
Qed.

(** The snare is muted, and a toggle of its first step is heard. *)
Lemma mute_only_on_playback_witness :
  isMuted snare_muted "snare" = true ∧
  ∃ b' v, toggleStep "snare" 0 snare_muted = Ok tt b' ∧
    voices b' = voices snare_muted ++ [v] ∧ v_track v = "snare".
Proof.
  set (b := snare_muted).
  assert (reachable b) as Hr
    by exact (reach_exec _ (ToggleMute "snare") (reach_new true)).
  assert ("snare" ∈ tracks) as Ht by (right; left).
  assert (0 ≤ 0 < steps) as Hs by (unfold steps; lia).
  assert (audioContext b = true) as Hon by reflexivity.
  assert (isActive b "snare" 0 = false) as Hoff by reflexivity.
  split; [reflexivity|].
  destruct (mute_only_on_playback "snare" 0 b Hr Ht Hs Hon) as (Hin & _ & _).
  destruct (Hin Hoff) as (b' & v & Heq & _ & Hvs & Hv & _).
  exists b', v. split; [exact Heq|]. split; [exact Hvs | exact Hv].
Defined.

(** ** Ticks *)

Lemma ticks_wf n b : wf b → wf (Nat.iter n (run playStep) b).
Proof.
  intros Hwf. induction n as [|n IH]; [done|].
  change (Nat.iter (S n) (run playStep) b)
    with (run playStep (Nat.iter n (run playStep) b)).
  by apply wf_playStep.
Qed.

Lemma ticks_currentStep n b :
  wf b →
  currentStep (Nat.iter n (run playStep) b) =
  (currentStep b + Z.of_nat n) mod steps.
Proof.
  intros Hwf. induction n as [|n IH].
  - cbn. rewrite Z.add_0_r, Z.mod_small; [done | apply Hwf].
  - change (Nat.iter (S n) (run playStep) b)
      with (run playStep (Nat.iter n (run playStep) b)).
    pose proof (ticks_wf n b Hwf) as Hwfn.
    set (bn := Nat.iter n (run playStep) b) in *.
    destruct (playStep_ok bn Hwfn) as (b' & Heq & _ & Hcur & _).
    unfold run. rewrite Heq. cbn [final]. rewrite Hcur, IH.
    rewrite Zplus_mod_idemp_l. f_equal. lia.
Qed.

(** C4: a tick from a reachable state returns.  It begins, in the order
    of the tracks, one sound for each track whose cell at the current step
    is active and which is not muted, and no other (none at all without an
    audio context); it leaves the pattern and the mutes alone, and moves
    the current step to the next one modulo 16.  So after [n] ticks the
    current step is [n] steps further, modulo 16, and every tick on the
    way returns. *)
Theorem playStep_tick (b : BeatMaker) :
  reachable b →
  (∃ b' vs,
     playStep b = Ok tt b' ∧ voices b' = voices b ++ vs ∧
     v_track <$> vs =
       (if audioContext b
        then filter (λ t, isActive b t (currentStep b) &&
                          negb (isMuted b t) = true) tracks
        else []) ∧
     Forall (λ v, voice_for b (v_track v) = Some v) vs ∧
     pattern b' = pattern b ∧ mutedTracks b' = mutedTracks b ∧
     currentStep b' = (currentStep b + 1) mod 16) ∧
  ∀ n : nat,
    returned (playStep (Nat.iter n (run playStep) b)) = true ∧
    currentStep (Nat.iter n (run playStep) b) =
      (currentStep b + Z.of_nat n) mod 16.
Proof.
  intros Hwf%reachable_wf. split.
  - destruct (playStep_ok b Hwf) as (b' & Heq & _ & Hcur & Hpat & _ & Hset & Hvs).
    exists b', (tick_voices b tracks). do 2 (split; [done|]).
    split; [|split; [|split; [done|split; [|done]]]].
    + destruct (audioContext b) eqn:Hon.
      * by apply tick_voices_tracks.
      * by rewrite tick_voices_silent.
    + unfold tick_voices. destruct (audioContext b); [|done].
      apply list.Forall_forall. intros v Hv.
      apply list_elem_of_omap in Hv as (t' & Ht' & Hv).
      apply list_elem_of_filter in Ht' as [_ Ht'].
      destruct (voice_for_track b t' Hwf Ht') as (v' & Hv' & Htr).
      assert (v' = v) as -> by congruence. by rewrite Htr.
    + by injection Hset as -> _ _ _.
  - intros n. split; [|by apply ticks_currentStep].
    destruct (playStep_ok _ (ticks_wf n b Hwf)) as (b' & -> & _). done.
Qed.

(** With the first step of the kick set, the first tick plays the kick and moves to step 1. *)
Lemma playStep_tick_witness :
  ∃ b' vs, playStep kick_on_first = Ok tt b' ∧
    voices b' = voices kick_on_first ++ vs ∧
    v_track <$> vs = ["kick"] ∧ currentStep b' = 1.
Proof.
  set (b := kick_on_first).
  destruct (playStep_tick b
              (reach_exec _ (ToggleStep "kick" 0) (reach_new true)))
    as ((b' & vs & Heq & Hvs & Htr & _ & _ & _ & Hcur) & _).
  exists b', vs. split; [exact Heq|]. split; [exact Hvs|].
  split; [exact Htr | exact Hcur].
Defined.

(** ** Clearing *)

(** C5: from a reachable state, whether playing or not, [clearAll]
    returns; every cell of the grid is then [false], the current step is 0
    and the sequencer is not playing, with no timer left.  It is the loop
    that wipes the rows, the removal of the class [active] from the
    buttons, and then [stop]. *)
Theorem clearAll_clears (b : BeatMaker) :
  reachable b →
  ∃ b',
    clearAll b = Ok tt b' ∧
    (∀ t s, t ∈ tracks → 0 ≤ s < steps →
       cell b' t s = Some false ∧ isActive b' t s = false) ∧
    currentStep b' = 0 ∧ isPlaying b' = false ∧
    intervalId b' = None ∧ timers b' = ∅ ∧
    ∃ b1,
      forEach tracks wipe b = Ok tt b1 ∧
      clearAll b =
        stop (set_stepBtns (with_active false <$> stepBtns b1) b1).
Proof.
  intros Hwf%reachable_wf.
  destruct (clearAll_ok b Hwf)
    as (b1 & b' & Hloop & Hstop & Heq & _ & Hrows & Hcur & Hplay & Hid & Htm & _).
  exists b'. split; [done|]. split; [|eauto 10].
  intros t s Ht Hs. destruct (Hrows t Ht) as (a & Ha & Hcl & Hlen & _).
  assert (cell b' t s = Some false) as Hcell.
  { unfold cell. rewrite Ha. cbn. apply Hcl. lia. }
  split; [done|]. by rewrite isActive_cell, Hcell.
Qed.

(** [clearAll] while playing, with one step set. *)
Lemma clearAll_clears_witness :
  isActive crash_playing "crash" 7 = true ∧ isPlaying crash_playing = true ∧
  ∃ b', clearAll crash_playing = Ok tt b' ∧ isActive b' "crash" 7 = false ∧
    currentStep b' = 0 ∧ isPlaying b' = false.
Proof.
  set (b := crash_playing).
  assert (reachable b) as Hr.
  { exact (reach_exec _ TogglePlay
             (reach_exec _ (ToggleStep "crash" 7) (reach_new false))). }
  assert ("crash" ∈ tracks) as Ht by (right; right; right; left).
  assert (0 ≤ 7 < steps) as Hs by (unfold steps; lia).
  split; [reflexivity|]. split; [reflexivity|].
  destruct (clearAll_clears b Hr) as (b' & Heq & Hcells & Hcur & Hplay & _).
  exists b'. split; [exact Heq|]. split; [exact (proj2 (Hcells _ _ Ht Hs))|].
  split; [exact Hcur | exact Hplay].
Defined.

(** ** Pause, stop and start *)

Lemma pause_timers b : wf b → timers (run pause b) = ∅.
Proof.
  intros Hwf. unfold run. rewrite pause_eq. cbn.
  apply (timers_ok_cancelled _ _ _ _ (wf_timers _ Hwf)).
Qed.

Lemma play_one_timer b :
  timers b = ∅ →
  isPlaying (run play b) = true ∧ currentStep (run play b) = currentStep b ∧
  size (timers (run play b)) = 1%nat.
Proof.
  intros Htm. unfold run. rewrite play_eq. cbn.
  by rewrite Htm, insert_empty, map_size_singleton.
Qed.

(** C6: [stop] is [pause] and then the current step set to 0.  From a
    reachable state, [pause] returns, keeps the current step, and leaves no
    timer to advance it; a [play] after it starts one timer at the step
    where [pause] was called, so that the next tick plays that step and
    moves one further; a [play] after [stop] starts at step 0, and the
    next tick moves to step 1. *)
Theorem stop_is_pause_then_rewind (b : BeatMaker) :
  reachable b →
  stop b = (pause;; modify (set_currentStep 0)) b ∧
  stop b = Ok tt (set_currentStep 0 (run pause b)) ∧
  returned (pause b) = true ∧
  currentStep (run pause b) = currentStep b ∧
  isPlaying (run pause b) = false ∧ timers (run pause b) = ∅ ∧
  (isPlaying (run play (run pause b)) = true ∧
   size (timers (run play (run pause b))) = 1%nat ∧
   currentStep (run play (run pause b)) = currentStep b ∧
   currentStep (run playStep (run play (run pause b))) =
     (currentStep b + 1) mod 16) ∧
  (isPlaying (run play (run stop b)) = true ∧
   size (timers (run play (run stop b))) = 1%nat ∧
   currentStep (run play (run stop b)) = 0 ∧
   currentStep (run playStep (run play (run stop b))) = 1).
Proof.
  intros Hwf%reachable_wf.
  split; [done|]. split; [apply stop_eq|].
  split; [by rewrite pause_eq|].
  assert (currentStep (run pause b) = currentStep b) as Hcur
    by (unfold run; by rewrite pause_eq).
  assert (isPlaying (run pause b) = false) as Hoff
    by (unfold run; by rewrite pause_eq).
  pose proof (pause_timers b Hwf) as Htm.
  do 3 (split; [done|]).
  assert (∀ b0, wf b0 → isPlaying b0 = false → timers b0 = ∅ →
            isPlaying (run play b0) = true ∧
            size (timers (run play b0)) = 1%nat ∧
            currentStep (run play b0) = currentStep b0 ∧
            currentStep (run playStep (run play b0)) =
              (currentStep b0 + 1) mod 16) as Hstart.
  { intros b0 Hwf0 Hoff0 Htm0.
    destruct (play_one_timer b0 Htm0) as (Hon & Hcur0 & Hsize).
    do 3 (split; [done|]).
    pose proof (ticks_currentStep 1 (run play b0) (wf_play b0 Hwf0 Hoff0)) as Ht.
    cbn [Nat.iter nat_rect] in Ht. by rewrite Ht, Hcur0. }
  split.
  - rewrite <- Hcur. apply Hstart; [by apply wf_pause | done..].
  - assert (run stop b = set_currentStep 0 (run pause b)) as Hstop
      by (unfold run at 1; by rewrite stop_eq).
    assert (currentStep (run stop b) = 0) as Hzero by (by rewrite Hstop).
    destruct (Hstart (run stop b)) as (? & ? & ? & Hnext);
      [by apply wf_stop | by rewrite Hstop | by rewrite Hstop |].
    rewrite Hzero in *. done.
Qed.

(** Five ticks in: [pause] and [play] resume at step 5, [stop] and [play] at step 0. *)
Lemma stop_is_pause_then_rewind_witness :
  currentStep five_ticks_in = 5 ∧
  currentStep (run play (run pause five_ticks_in)) = 5 ∧
  currentStep (run play (run stop five_ticks_in)) = 0.
Proof.
  set (b := five_ticks_in).
  assert (reachable b) as Hr.
  { do 5 apply reach_exec. exact (reach_exec _ TogglePlay (reach_new true)). }
  split; [reflexivity|].
  destruct (stop_is_pause_then_rewind b Hr)
    as (_ & _ & _ & _ & _ & _ & (_ & _ & Hpause & _) & (_ & _ & Hstop & _)).
  split; [exact Hpause | exact Hstop].
Defined.

(** ** Timers *)

Lemma wf_one_timer b :
  wf b →
  (size (timers b) ≤ 1)%nat ∧
  (∀ id, is_Some (timers b !! id) →
     isPlaying b = true ∧ intervalId b = Some id) ∧
  (isPlaying b = true →
     ∃ id, intervalId b = Some id ∧ is_Some (timers b !! id) ∧
       size (timers b) = 1%nat) ∧
  (isPlaying b = false → intervalId b = None ∧ timers b = ∅).
Proof.
  intros Hwf.
  destruct (wf_timers _ Hwf) as [[(Hon & id & iv & Hid & Htm)|(Hoff & Hid & Htm)] _];
    rewrite Htm.
  - rewrite map_size_singleton. split; [done|]. split; [|split].
    + intros id' [iv' Hiv']. apply lookup_singleton_Some in Hiv' as [<- _]. done.
    + intros _. exists id. by rewrite lookup_singleton_eq.
    + congruence.
  - rewrite map_size_empty. split; [lia|]. split; [|split].
    + intros id' [iv' Hiv']. by rewrite lookup_empty in Hiv'.
    + congruence.
    + done.
Qed.

(** C3, as the spec has it, fails: [play] cancels nothing, and two calls
    in a row on the new object leave two live timers, of which
    [intervalId] holds only the second. *)
Lemma play_twice_two_timers :
  reachable_with_play played_twice ∧
  size (timers played_twice) = 2%nat ∧
  is_Some (timers played_twice !! 1%positive) ∧
  is_Some (timers played_twice !! 2%positive) ∧
  intervalId played_twice = Some 2%positive.
Proof.
  split; [do 2 apply rwp_play; apply rwp_new|].
  split; [by vm_compute|]. split; [by eexists|]. split; [by eexists|]. done.
Qed.

(** C3, as the code has it: [play] is only called by [togglePlay], and
    only when the sequencer is not playing.  In every state reachable by
    the handlers of the page and by ticks there is at most one live timer;
    a live timer is the one [intervalId] holds, and there is one exactly
    when the sequencer is playing.  While playing, [updateTempo] cancels
    that timer and installs one new timer; while not playing, [togglePlay]
    is [play] and installs the only timer. *)
Theorem one_timer_behind_togglePlay (b : BeatMaker) :
  reachable b →
  (size (timers b) ≤ 1)%nat ∧
  (∀ id, is_Some (timers b !! id) →
     isPlaying b = true ∧ intervalId b = Some id) ∧
  (isPlaying b = true →
     togglePlay b = pause b ∧
     ∃ id, intervalId b = Some id ∧ is_Some (timers b !! id) ∧
       ∀ v, timers (run (updateTempo v) b) !! id = None ∧
            intervalId (run (updateTempo v) b) = Some (nextTimerId b) ∧
            is_Some (timers (run (updateTempo v) b) !! nextTimerId b) ∧
            size (timers (run (updateTempo v) b)) = 1%nat) ∧
  (isPlaying b = false →
     togglePlay b = play b ∧ timers b = ∅ ∧
     size (timers (run play b)) = 1%nat).
Proof.
  intros Hwf%reachable_wf.
  destruct (wf_one_timer b Hwf) as (Hsize & Hlive & Hon & Hoff).
  do 2 (split; [done|]). split.
  - intros Hp. split; [unfold togglePlay; mred; by rewrite Hp|].
    destruct (Hon Hp) as (id & Hid & Hin & _). exists id.
    do 2 (split; [done|]). intros v.
    unfold run. rewrite updateTempo_eq, Hp. cbn.
    rewrite (timers_ok_cancelled _ _ _ _ (wf_timers _ Hwf)), insert_empty.
    rewrite lookup_singleton_eq, map_size_singleton.
    split; [|by eauto]. apply lookup_singleton_ne.
    pose proof (proj2 (wf_timers _ Hwf) id Hin). lia.
  - intros Hp. destruct (Hoff Hp) as [_ Htm].
    split; [unfold togglePlay; mred; by rewrite Hp|]. split; [done|].
    by apply play_one_timer.
Qed.

(** Playing, after a change of tempo: one timer. *)
Lemma one_timer_behind_togglePlay_witness :
  isPlaying playing_at_90 = true ∧ (size (timers playing_at_90) ≤ 1)%nat.
Proof.
  set (b := playing_at_90).
  assert (reachable b) as Hr.
  { exact (reach_exec _ (UpdateTempo "90")
             (reach_exec _ TogglePlay (reach_new true))). }
  split; [reflexivity|].
  exact (proj1 (one_timer_behind_togglePlay b Hr)).
Defined.

(** ** The tempo *)

(** C2, as the spec has it, fails on the new object: [updateTempo] with
    the numeral 0, or with a negative one, returns and the tempo is then
    that number. *)
Lemma updateTempo_accepts_zero :
  decimal 0 = "0" ∧ 0 ≤ 0 ∧
  updateTempo "0" (constructor true) =
    Ok tt (set_tempo (of_Z 0) (constructor true)) ∧
  tempo (constructor true) = of_Z 120 ∧
  tempo (run (updateTempo "0") (constructor true)) ≠ tempo (constructor true) ∧
  updateTempo "-5" (constructor true) =
    Ok tt (set_tempo (of_Z (-5)) (constructor true)).
Proof.
  split; [done|]. split; [done|].
  split; [by rewrite updateTempo_eq|]. split; [done|].
  split; [|by rewrite updateTempo_eq].
  unfold run. rewrite updateTempo_eq. cbn. discriminate.
Qed.

(** C2, as the code has it: [updateTempo] checks nothing and never
    throws.  For every integer [bpm] that a number holds exactly (up to
    2^53 in magnitude), positive or not, given as a decimal numeral, it
    returns with the tempo set to [bpm]; the pattern, the current step and
    the settings are as before.  While not playing the timers are as
    before; while playing the timer that [intervalId] holds is cancelled
    and one timer is installed, with the delay computed from the new
    tempo. *)
Theorem updateTempo_no_guard (bpm : Z) (b : BeatMaker) :
  - max_exact ≤ bpm ≤ max_exact →
  ∃ b',
    updateTempo (decimal bpm) b = Ok tt b' ∧
    tempo b' = of_Z bpm ∧
    currentStep b' = currentStep b ∧ pattern b' = pattern b ∧
    settings b' = settings b ∧ isPlaying b' = isPlaying b ∧
    (isPlaying b = false →
       intervalId b' = intervalId b ∧ timers b' = timers b ∧
       nextTimerId b' = nextTimerId b) ∧
    (isPlaying b = true →
       intervalId b' = Some (nextTimerId b) ∧
       timers b' =
         <[nextTimerId b := interval_of (tempo b')]>
           (cancel (intervalId b) (timers b))).
Proof.
  intros Hbpm.
  rewrite updateTempo_eq, parseInt_decimal by done. eexists; split; [done|].
  destruct (isPlaying b) eqn:Hp; cbn; rewrite ?Hp; by repeat split.
Qed.

(** A negative tempo while playing. *)
Lemma updateTempo_no_guard_witness :
  - max_exact ≤ -40 ≤ max_exact ∧
  ∃ b', updateTempo "-40" (run togglePlay (constructor true)) = Ok tt b' ∧
    tempo b' = of_Z (-40) ∧ intervalId b' = Some 2%positive.
Proof.
  assert (- max_exact ≤ -40 ≤ max_exact) as Hbpm by (by vm_compute).
  split; [exact Hbpm|].
  destruct (updateTempo_no_guard (-40) (run togglePlay (constructor true))
              Hbpm)
    as (b' & Heq & Htempo & _ & _ & _ & _ & _ & Hon).
  exists b'. split; [exact Heq|]. split; [exact Htempo|].
  exact (proj1 (Hon eq_refl)).
Defined.

(** ** Sound variants *)

Lemma changeSound_found t id v c b :
  variations !! id = Some v → soundConfig b !! t = Some c →
  changeSound t id b =
  Ok tt (set_soundConfig
           (<[t := Config (var_frequency v) (var_type v) (decay c)]>
              (soundConfig b)) b).
Proof. intros Hv Hc. rewrite changeSound_eq, Hv. unfold spread. by rewrite Hc. Qed.

(** C7: for a track that has parameters, [changeSound] with an
    identifier that is not in the table returns and leaves the state, and
    so the parameters of every track, as before.  With one that is in the
    table it returns, the frequency and the waveform of the track are
    those of the variant, its decay is as before, and nothing else
    changes.  So [changeSound('kick', 'kick2')] makes the kick a triangle
    at 40 with the decay it had. *)
Theorem changeSound_variant (t id : string) (b : BeatMaker) :
  (∀ c, variations !! id = None → soundConfig b !! t = Some c →
     changeSound t id b = Ok tt b) ∧
  (∀ v c, variations !! id = Some v → soundConfig b !! t = Some c →
     ∃ c', changeSound t id b =
             Ok tt (set_soundConfig (<[t := c']> (soundConfig b)) b) ∧
       frequency c' = var_frequency v ∧ type c' = var_type v ∧
       decay c' = decay c) ∧
  (∀ c, soundConfig b !! "kick" = Some c →
     ∃ b', changeSound "kick" "kick2" b = Ok tt b' ∧
       soundConfig b' !! "kick" = Some (Config 40 triangle (decay c))).
Proof.
  split; [|split].
  - intros c Hv _. by rewrite changeSound_eq, Hv.
  - intros v c Hv Hc. eexists. by rewrite (changeSound_found t id v c).
  - intros c Hc. eexists.
    rewrite (changeSound_found "kick" "kick2" (Variation 40 triangle) c) by done.
    split; [done|]. cbn. by rewrite lookup_insert_eq.
Qed.

(** An identifier that is not in the table, and [kick2], on the new object. *)
Lemma changeSound_variant_witness :
  changeSound "kick" "kick9" (constructor true) = Ok tt (constructor true) ∧
  ∃ b', changeSound "kick" "kick2" (constructor true) = Ok tt b' ∧
    soundConfig b' !! "kick" = Some (Config 40 triangle (Some (1 # 2)%Q)).
Proof.
  destruct (changeSound_variant "kick" "kick9" (constructor true))
    as (Hnone & _ & Hkick).
  split; [exact (Hnone (Config 60 sine (Some (1 # 2)%Q)) eq_refl eq_refl)|].
  exact (Hkick (Config 60 sine (Some (1 # 2)%Q)) eq_refl).
Defined.

(** C10: the table of variants is looked up by the identifier alone.  From
    a reachable state, for any of the four tracks and any identifier of
    the table, [changeSound] gives the track the frequency and the waveform
    of that variant and keeps its decay, whatever track the variant is
    named after.  So [changeSound('kick', 'snare2')] makes the kick a
    sawtooth at 300. *)
Theorem changeSound_any_variant (t id : string) (v : variation) (b : BeatMaker) :
  reachable b → t ∈ tracks → variations !! id = Some v →
  (∃ c b',
     soundConfig b !! t = Some c ∧ changeSound t id b = Ok tt b' ∧
     soundConfig b' !! t =
       Some (Config (var_frequency v) (var_type v) (decay c))) ∧
  (∃ c b',
     soundConfig b !! "kick" = Some c ∧
     changeSound "kick" "snare2" b = Ok tt b' ∧
     soundConfig b' !! "kick" = Some (Config 300 sawtooth (decay c))).
Proof.
  intros Hwf%reachable_wf Ht Hv.
  assert (∀ t' id' v', t' ∈ tracks → variations !! id' = Some v' →
            ∃ c b', soundConfig b !! t' = Some c ∧
              changeSound t' id' b = Ok tt b' ∧
              soundConfig b' !! t' =
                Some (Config (var_frequency v') (var_type v') (decay c)))
    as Hany.
  { intros t' id' v' Ht' Hv'.
    destruct (wf_sounds _ Hwf t' Ht') as (c & _ & Hc & _).
    exists c. eexists. split; [done|].
    rewrite (changeSound_found t' id' v' c) by done. split; [done|].
    cbn. by rewrite lookup_insert_eq. }
  split; [by apply Hany|].
  apply (Hany "kick" "snare2" (Variation 300 sawtooth)); [by left | done].
Qed.

(** A variant of the hi-hat given to the crash of the new object. *)
Lemma changeSound_any_variant_witness :
  ∃ b', changeSound "crash" "hihat3" (constructor true) = Ok tt b' ∧
    soundConfig b' !! "crash" = Some (Config 6000 triangle (Some 1%Q)).
Proof.
  assert ("crash" ∈ tracks) as Ht by (right; right; right; left).
  destruct (changeSound_any_variant "crash" "hihat3" (Variation 6000 triangle)
              (constructor true) (reach_new true) Ht eq_refl)
    as ((c & b' & Hc & Heq & Hres) & _).
  exists b'. split; [exact Heq|].
  injection Hc as <-. exact Hres.
Defined.

(** ** More of the page *)

(** *** [toggleMute] in closed form *)

Lemma toggleMute_eq t b :
  toggleMute t b =
  match muteBtns b !! t with
  | Some _ =>
      Ok tt (set_muteBtns (<[t := negb (isMuted b t)]> (muteBtns b))
               (set_mutedTracks (flip_mute t (mutedTracks b)) b))
  | None => Throw TypeError (set_mutedTracks (flip_mute t (mutedTracks b)) b)
  end.
Proof.
  unfold toggleMute, flip_mute, isMuted. mred.
  destruct (muteBtns b !! t); by case_bool_decide.
Qed.

(** *** The buttons after a tick and after [clearAll] *)

Lemma visit_buttons t a c b :
  wf b → t ∈ tracks →
  pattern b !! t = Some a → stepBtns b !! (t, currentStep b) = Some c →
  stepBtns (run (visit t) b) =
  <[(t, currentStep b) := with_current true c]> (stepBtns b).
Proof.
  intros Hwf Ht Ha Hc. unfold run. rewrite (visit_eq t a c) by done.
  destruct (fires b t); [|done].
  destruct (wf_sounds _ Hwf t Ht) as (cfg & d & Hcfg & Hd).
  rewrite (playSound_eq t cfg d) by done. cbn [final].
  by destruct (sounded_rest t cfg d (highlighted t c b)) as (_ & _ & _ & _ & ->).
Qed.

Lemma visit_lit b0 pre t b :
  t ∈ tracks → ticking b0 pre b ∧ lit b0 pre b →
  ∃ b', visit t b = Ok tt b' ∧ ticking b0 (pre ++ [t]) b' ∧ lit b0 (pre ++ [t]) b'.
Proof.
  intros Ht [Htick Hlit].
  destruct (visit_ticking b0 pre t b Ht Htick) as (b' & Heq & Htick').
  exists b'. do 2 (split; [done|]).
  destruct Htick as (Hwf & Hcur & _).
  destruct (wf_rows _ Hwf t Ht) as (a & Ha & _).
  destruct (proj2 (wf_btns _ Hwf t (currentStep b))) as [c Hc].
  { split; [done | apply Hwf]. }
  pose proof (visit_buttons t a c b Hwf Ht Ha Hc) as Hb.
  unfold run in Hb. rewrite Heq in Hb. cbn [final] in Hb.
  intros t' s. rewrite Hb, Hcur.
  destruct (decide ((t, currentStep b0) = (t', s))) as [[= <- <-]|Hne].
  - rewrite lookup_insert_eq, bool_decide_eq_true_2.
    2: { split; [|done]. apply elem_of_app. right. by left. }
    pose proof (Hlit t (currentStep b0)) as Hl.
    rewrite Hcur in Hc. rewrite Hc in Hl.
    case_bool_decide; destruct (stepBtns b0 !! (t, currentStep b0)) as [c0|];
      cbn in *; by simplify_eq.
  - rewrite lookup_insert_ne, Hlit by done.
    apply (f_equal (λ x : bool, if x then _ else _)).
    apply bool_decide_ext. rewrite elem_of_app, list_elem_of_singleton.
    split; [tauto|]. intros [[? | ->] ->]; [done | congruence].
Qed.

Lemma playStep_buttons b t s :
  wf b →
  stepBtns (run playStep b) !! (t, s) =
  (λ c, Classes (cls_active c) (bool_decide (s = currentStep b))) <$>
    stepBtns b !! (t, s).
Proof.
  intros Hwf.
  pose (b0 := set_stepBtns (with_current false <$> stepBtns b) b).
  assert (wf b0) as Hwf0 by (by apply wf_set_stepBtns_fmap).
  destruct (forEach_inv (λ pre b1, ticking b0 pre b1 ∧ lit b0 pre b1) visit tracks
              (λ pre x b1 Hin, visit_lit b0 pre x b1 Hin) [] b0)
    as (b1 & Hloop & _ & Hlit).
  { split.
    - do 5 (split; [done|]).
      unfold tick_voices. destruct (audioContext b0); cbn; by rewrite app_nil_r.
    - intros t' s'. rewrite bool_decide_eq_false_2; [done|].
      intros [Hin _]. by apply elem_of_nil in Hin. }
  assert (run playStep b =
          set_currentStep (Z.rem (currentStep b1 + 1) steps) b1) as ->.
  { unfold run, playStep. unfold mbind, M_bind at 1 2.
    change (clearCurrentStepHighlight b) with (Ok tt b0).
    cbv beta iota. by rewrite Hloop. }
  cbn [set_currentStep stepBtns]. rewrite (Hlit t s). cbn [app].
  change (stepBtns b0) with (with_current false <$> stepBtns b).
  change (currentStep b0) with (currentStep b).
  rewrite lookup_fmap.
  destruct (stepBtns b !! (t, s)) as [c|] eqn:Hc; cbn.
  - assert (t ∈ tracks) as Ht by (apply (wf_btns _ Hwf t s); eauto).
    case_bool_decide as H1; case_bool_decide as H2; try done; tauto.
  - by case_bool_decide.
Qed.

Lemma clearAll_buttons b t s :
  wf b →
  stepBtns (run clearAll b) !! (t, s) =
  (λ _, Classes false false) <$> stepBtns b !! (t, s).
Proof.
  intros Hwf.
  destruct (clearAll_ok b Hwf) as (b1 & _ & Hloop & Hstop & _).
  destruct (forEach_wipe b Hwf) as (b1' & Hloop' & _ & _ & _ & _ & _ & Hbtns & _).
  assert (b1' = b1) as -> by congruence.
  unfold run. rewrite Hstop, stop_eq. cbn [final]. unfold run.
  rewrite pause_eq. cbn. rewrite Hbtns, !lookup_fmap.
  by destruct (stepBtns b !! (t, s)).
Qed.

Lemma consistent_constructor audio : consistent (constructor audio).
Proof.
  split.
  - intros t s Ht Hs.
    assert (∀ t' s', isActive (constructor audio) t' s' = false) as Hoff.
    { intros t' s'. unfold isActive. cbn [constructor pattern].
      destruct (list_to_map _ !! t') as [a|] eqn:Ha; [|done].
      apply elem_of_list_to_map_2 in Ha.
      apply list_elem_of_fmap in Ha as (t1 & [= -> ->] & _). cbn.
      rewrite array_fill_get. by case_bool_decide. }
    rewrite Hoff. unfold shown_active. cbn [constructor stepBtns].
    destruct (proj2 (wf_btns _ (wf_constructor audio) t s) (conj Ht Hs))
      as [c Hc].
    cbn [constructor stepBtns] in Hc. rewrite Hc. cbn.
    apply elem_of_list_to_map_2 in Hc.
    apply list_elem_of_bind in Hc as (t1 & Hc & _).
    apply list_elem_of_bind in Hc as (s1 & Hc & _).
    apply list_elem_of_singleton in Hc. by inversion Hc.
  - intros t Ht.
    apply elem_of_tracks in Ht as [-> | [-> | [-> | ->]]]; reflexivity.
  - intros t s. unfold shown_current. cbn [constructor stepBtns].
    destruct (generateSteps !! (t, s)) as [c|] eqn:Hc; [|done].
    apply elem_of_list_to_map_2 in Hc.
    apply list_elem_of_bind in Hc as (t1 & Hc & _).
    apply list_elem_of_bind in Hc as (s1 & Hc & _).
    apply list_elem_of_singleton in Hc. by inversion Hc.
  - intros id iv. cbn. by rewrite lookup_empty.
  - intros t c Hc. exists c. cbn [constructor soundConfig]. eauto.
  - done.
Qed.

Lemma consistent_pause b : wf b → consistent b → consistent (run pause b).
Proof.
  intros Hwf Hc. unfold run. rewrite pause_eq. mred. ok_fields Hc.
  - intros t s Ht Hs. rewrite lookup_fmap.
    pose proof (ok_active _ Hc t s Ht Hs) as Ha. unfold shown_active in Ha.
    by destruct (stepBtns b !! (t, s)).
  - intros t s. rewrite lookup_fmap. by destruct (stepBtns b !! (t, s)).
  - rewrite (timers_ok_cancelled _ _ _ _ (wf_timers _ Hwf)).
    intros id iv. by rewrite lookup_empty.
Qed.

Lemma consistent_play b :
  wf b → isPlaying b = false → consistent b → consistent (run play b).
Proof.
  intros Hwf Hp Hc. unfold run. rewrite play_eq. mred. ok_fields Hc.
  - intros t s Hcur. destruct (ok_current _ Hc t s Hcur). congruence.
  - destruct (wf_one_timer b Hwf) as (_ & _ & _ & Hoff).
    destruct (Hoff Hp) as [_ ->]. intros id iv.
    rewrite insert_empty. intros [_ <-]%lookup_singleton_Some. done.
Qed.

Lemma consistent_set_currentStep_0 b :
  isPlaying b = false → consistent b → consistent (set_currentStep 0 b).
Proof.
  intros Hp Hc. ok_fields Hc.
  intros t s Hcur. destruct (ok_current _ Hc t s Hcur). congruence.
Qed.

Lemma consistent_stop b : wf b → consistent b → consistent (run stop b).
Proof.
  intros Hwf Hc. unfold run. rewrite stop_eq. cbn [final].
  apply consistent_set_currentStep_0; [|by apply consistent_pause].
  unfold run. by rewrite pause_eq.
Qed.

Lemma consistent_updateTempo v b :
  wf b → consistent b → consistent (run (updateTempo v) b).
Proof.
  intros Hwf Hc. unfold run. rewrite updateTempo_eq.
  destruct (isPlaying b) eqn:Hp; cbn [final]; mred; ok_fields Hc.
  - rewrite (timers_ok_cancelled _ _ _ _ (wf_timers _ Hwf)), insert_empty.
    intros id iv [_ <-]%lookup_singleton_Some. done.
  - destruct (wf_one_timer b Hwf) as (_ & _ & _ & Hoff).
    destruct (Hoff Hp) as [_ ->]. intros id iv. by rewrite lookup_empty.
Qed.

Lemma consistent_changeSound t v b :
  consistent b → consistent (run (changeSound t v) b).
Proof.
  intros Hc. unfold run. rewrite changeSound_eq.
  destruct (variations !! v) as [x|] eqn:Hv; cbn [final]; [|done].
  mred. ok_fields Hc.
  intros t' c Hdef. destruct (ok_sounds _ Hc t' c Hdef) as (c' & Hc' & Hd & Hp).
  destruct (decide (t = t')) as [->|Hne].
  - rewrite lookup_insert_eq, Hc'. eexists; split; [done|].
    split; [done|]. right. by exists v, x.
  - rewrite lookup_insert_ne by done. eauto.
Qed.

Lemma consistent_toggleMute t b :
  consistent b → consistent (run (toggleMute t) b).
Proof.
  intros Hc. unfold run. rewrite toggleMute_eq.
  assert (∀ t', t' ≠ t →
            bool_decide (t' ∈ flip_mute t (mutedTracks b)) =
            bool_decide (t' ∈ mutedTracks b)) as Hother.
  { intros t' Hne. apply bool_decide_ext. unfold flip_mute.
    destruct (bool_decide (t ∈ mutedTracks b)).
    - rewrite elem_of_difference, elem_of_singleton. tauto.
    - rewrite elem_of_union, elem_of_singleton. tauto. }
  assert (bool_decide (t ∈ flip_mute t (mutedTracks b)) =
          negb (isMuted b t)) as Hself.
  { unfold flip_mute, isMuted.
    destruct (decide (t ∈ mutedTracks b)) as [Hin|Hin].
    - rewrite (bool_decide_eq_true_2 _ Hin). cbn.
      apply bool_decide_eq_false_2.
      rewrite elem_of_difference, elem_of_singleton. tauto.
    - rewrite (bool_decide_eq_false_2 _ Hin). cbn.
      apply bool_decide_eq_true_2.
      rewrite elem_of_union, elem_of_singleton. tauto. }
  destruct (muteBtns b !! t) as [m|] eqn:Hm; cbn [final]; mred; ok_fields Hc.
  - intros t' Ht'. destruct (decide (t = t')) as [<-|Hne].
    + by rewrite lookup_insert_eq, Hself.
    + rewrite lookup_insert_ne, Hother by done. by apply Hc.
  - intros t' Ht'. destruct (decide (t = t')) as [<-|Hne].
    + pose proof (ok_muted _ Hc t Ht'). congruence.
    + rewrite Hother by done. by apply Hc.
Qed.

Lemma consistent_sounded t c d b : consistent b → consistent (sounded t c d b).
Proof.
  intros Hc. unfold sounded. destruct (audioContext b) eqn:Hon; [|done].
  ok_fields Hc. congruence.
Qed.

Lemma isActive_flipped t s a b t' s' :
  pattern b !! t = Some a → (t', s') ≠ (t, s) →
  isActive (flipped t s a b) t' s' = isActive b t' s'.
Proof. intros Ha Hne. by rewrite !isActive_cell, cell_flipped. Qed.

Lemma consistent_flipped t s a b :
  wf b → pattern b !! t = Some a → stepBtns b !! (t, s) = None →
  consistent b → consistent (flipped t s a b).
Proof.
  intros Hwf Ha Hb Hc. split; try (by apply Hc).
  intros t' s' Ht' Hs'. rewrite isActive_flipped; [by apply Hc | done |].
  intros [= -> ->].
  destruct (proj2 (wf_btns _ Hwf t s) (conj Ht' Hs')) as [? ?]. congruence.
Qed.

Lemma consistent_shown t s a c b :
  pattern b !! t = Some a → stepBtns b !! (t, s) = Some c →
  consistent b → consistent (shown t s a c b).
Proof.
  intros Ha Hb Hc. split; try (by apply Hc).
  - intros t' s' Ht' Hs'. unfold shown_active. cbn [shown set_stepBtns stepBtns].
    destruct (decide ((t, s) = (t', s'))) as [[= <- <-]|Hne].
    + rewrite lookup_insert_eq. cbn.
      change (isActive (shown t s a c b) t s)
        with (truthy (cell (flipped t s a b) t s)).
      by rewrite cell_flipped_eq.
    + rewrite lookup_insert_ne by done.
      change (isActive (shown t s a c b) t' s')
        with (isActive (flipped t s a b) t' s').
      rewrite isActive_flipped; [by apply Hc | done | congruence].
  - intros t' s'. unfold shown_current. cbn [shown set_stepBtns stepBtns].
    destruct (decide ((t, s) = (t', s'))) as [[= <- <-]|Hne].
    + rewrite lookup_insert_eq. cbn. intros Hcur.
      apply (ok_current _ Hc t s). unfold shown_current. by rewrite Hb.
    + rewrite lookup_insert_ne by done. apply (ok_current _ Hc).
Qed.

Lemma consistent_toggleStep t s b :
  wf b → consistent b → consistent (run (toggleStep t s) b).
Proof.
  intros Hwf Hc. unfold run.
  destruct (pattern b !! t) as [a|] eqn:Hp.
  2: { by rewrite toggleStep_unknown. }
  destruct (stepBtns b !! (t, s)) as [c|] eqn:Hb.
  2: { rewrite (toggleStep_no_button _ _ a) by done.
       by apply consistent_flipped. }
  rewrite (toggleStep_button _ _ a c) by done.
  pose proof (consistent_shown t s a c b Hp Hb Hc) as Hc'.
  destruct (negb (truthy (array_get a s))); [|done].
  destruct (wf_sounds _ Hwf t) as (cfg & d & Hcfg & Hd).
  { apply (wf_rows_only _ Hwf). eauto. }
  rewrite (playSound_eq _ cfg d) by done. by apply consistent_sounded.
Qed.

Lemma step_back n : 0 ≤ n < steps → ((n + 1) mod steps - 1) mod steps = n.
Proof.
  unfold steps. intros Hn.
  destruct (decide (n = 15)) as [->|Hne]; [done|].
  rewrite (Z.mod_small (n + 1)) by lia. rewrite Z.mod_small; lia.
Qed.

Lemma consistent_playStep b :
  wf b → isPlaying b = true → consistent b → consistent (run playStep b).
Proof.
  intros Hwf Hp Hc.
  pose proof (playStep_buttons b) as Hbtns.
  destruct (playStep_ok b Hwf)
    as (b' & Heq & _ & Hcur & Hpat & Htr & Hset & Hvs).
  unfold run in *. rewrite Heq in *. cbn [final] in *.
  injection Htr as Hplay Htempo _ Htimers _.
  injection Hset as Hmuted Haudio Hsounds Hmbtns.
  split.
  - intros t s Ht Hs. unfold shown_active, isActive.
    rewrite Hbtns, Hpat by done.
    pose proof (ok_active _ Hc t s Ht Hs) as Ha. unfold shown_active in Ha.
    destruct (stepBtns b !! (t, s)); [|done]. cbn in *. done.
  - intros t Ht. unfold isMuted. rewrite Hmbtns, Hmuted. by apply Hc.
  - intros t s. unfold shown_current. rewrite Hbtns by done.
    destruct (stepBtns b !! (t, s)); [|done]. cbn.
    intros [= Hs%bool_decide_eq_true_1]. subst s.
    rewrite Hplay, Hcur, step_back; [done | apply Hwf].
  - rewrite Htimers, Htempo. apply Hc.
  - rewrite Hsounds. apply Hc.
  - rewrite Haudio, Hvs. intros Hoff.
    by rewrite (ok_silent _ Hc Hoff), tick_voices_silent.
Qed.

Lemma consistent_clearAll b :
  wf b → consistent b → consistent (run clearAll b).
Proof.
  intros Hwf Hc.
  pose proof (clearAll_buttons b) as Hbtns.
  destruct (clearAll_ok b Hwf)
    as (b1 & b' & _ & _ & Heq & Hwf' & Hrows & Hcur & Hplay & _ & Htm &
        Htempo & Hset & Hvs).
  unfold run in *. rewrite Heq in *. cbn [final] in *.
  injection Hset as Hmuted Haudio Hsounds Hmbtns.
  split.
  - intros t s Ht Hs. unfold shown_active, isActive. rewrite Hbtns by done.
    destruct (proj2 (wf_btns _ Hwf t s) (conj Ht Hs)) as [c ->].
    destruct (Hrows t Ht) as (a & -> & Hcl & Hlen & _). cbn.
    rewrite Hcl; [done | lia].
  - intros t Ht. unfold isMuted. rewrite Hmbtns, Hmuted. by apply Hc.
  - intros t s. unfold shown_current. rewrite Hbtns by done.
    by destruct (stepBtns b !! (t, s)).
  - rewrite Htm. intros id iv. by rewrite lookup_empty.
  - rewrite Hsounds. apply Hc.
  - rewrite Haudio, Hvs. apply Hc.
Qed.

Lemma consistent_exec c b :
  wf b → consistent b → consistent (run (exec c) b).
Proof.
  intros Hwf Hc. destruct c; cbn [exec].
  - unfold run, togglePlay. mred.
    destruct (isPlaying b) eqn:Hp;
      [by apply consistent_pause | by apply consistent_play].
  - by apply consistent_pause.
  - by apply consistent_stop.
  - by apply consistent_clearAll.
  - by apply consistent_updateTempo.
  - by apply consistent_toggleMute.
  - by apply consistent_changeSound.
  - by apply consistent_toggleStep.
  - unfold run. mred. destruct (timers b !! id) as [iv|] eqn:Hid; [|done].
    apply consistent_playStep; [done | | done].
    destruct (wf_one_timer b Hwf) as (_ & Hlive & _). apply (Hlive id). eauto.
Qed.

Lemma reachable_consistent b : reachable b → consistent b.
Proof.
  induction 1 as [audio | b c Hr IH]; [apply consistent_constructor|].
  apply consistent_exec; [by apply reachable_wf | done].
Qed.

(** *** The sounds a handler begins *)



(** * Further properties of the handlers *)

(** ** The grid and what the page shows *)

(** X1: in every state the handlers and ticks can reach, whatever the
    track names and the integer steps they were called with, the current
    step is inside the loop, every cell of the grid holds a boolean, the
    pattern has got no row of its own for any other track, and the page
    has a step button exactly for the cells of the grid. *)
Theorem grid_stays_whole (b : BeatMaker) :
  reachable b →
  0 ≤ currentStep b < 16 ∧
  (∀ t s, t ∈ tracks → 0 ≤ s < 16 → ∃ x, cell b t s = Some x) ∧
  (∀ t, t ∉ tracks → pattern b !! t = None) ∧
  (∀ t s, is_Some (stepBtns b !! (t, s)) ↔ t ∈ tracks ∧ 0 ≤ s < 16).
Proof.
  intros Hwf%reachable_wf. split; [apply Hwf|]. split; [|split].
  - intros t s Ht Hs. destruct (wf_rows _ Hwf t Ht) as (a & Ha & _ & Hcells).
    destruct (Hcells s Hs) as [x Hx]. exists x. unfold cell. by rewrite Ha.
  - intros t Ht. destruct (pattern b !! t) eqn:Hp; [|done].
    destruct Ht. apply (wf_rows_only _ Hwf). eauto.
  - apply Hwf.
Qed.

(** After a toggle at step 20 the grid is still whole. *)
Lemma grid_stays_whole_witness :
  cell after_stray_toggle "kick" 20 = Some true ∧
  0 ≤ currentStep after_stray_toggle < 16 ∧
  pattern after_stray_toggle !! "bass" = None.
Proof.
  assert (reachable after_stray_toggle) as Hr
    by exact (reach_exec _ (ToggleStep "kick" 20) (reach_new true)).
  destruct (grid_stays_whole after_stray_toggle Hr) as (Hstep & _ & Hrows & _).
  split; [reflexivity|]. split; [exact Hstep|].
  apply Hrows. unfold tracks. rewrite !elem_of_cons, elem_of_nil.
  intros [H|[H|[H|[H|[]]]]]; discriminate H.
Defined.

(** X2: in every reachable state the class [active] of each step button
    of the grid tells whether its cell is active. *)
Theorem buttons_show_pattern (t : string) (s : Z) (b : BeatMaker) :
  reachable b → t ∈ tracks → 0 ≤ s < 16 →
  shown_active b t s = Some (isActive b t s).
Proof.
  intros Hr Ht Hs. by apply (ok_active _ (reachable_consistent b Hr)).
Qed.

(** The first button of the kick after a click on it. *)
Lemma buttons_show_pattern_witness :
  shown_active kick_on_first "kick" 0 = Some true.
Proof.
  assert (reachable kick_on_first) as Hr
    by exact (reach_exec _ (ToggleStep "kick" 0) (reach_new true)).
  assert ("kick" ∈ tracks) as Ht by (by left).
  assert (0 ≤ 0 < 16) as Hs by lia.
  exact (buttons_show_pattern "kick" 0 kick_on_first Hr Ht Hs).
Defined.

(** ** Mute *)

Lemma flip_mute_twice t (ms : gset string) : flip_mute t (flip_mute t ms) = ms.
Proof.
  unfold flip_mute. destruct (decide (t ∈ ms)) as [Hin|Hin].
  - rewrite (bool_decide_eq_true_2 _ Hin).
    rewrite bool_decide_eq_false_2
      by (rewrite elem_of_difference, elem_of_singleton; tauto).
    apply set_eq. intros x. rewrite elem_of_union, elem_of_difference,
      elem_of_singleton. destruct (decide (x = t)) as [->|]; tauto.
  - rewrite (bool_decide_eq_false_2 _ Hin).
    rewrite bool_decide_eq_true_2
      by (rewrite elem_of_union, elem_of_singleton; tauto).
    apply set_eq. intros x. rewrite elem_of_difference, elem_of_union,
      elem_of_singleton. destruct (decide (x = t)) as [->|]; tauto.
Qed.

Lemma isMuted_flip t t' (ms : gset string) :
  bool_decide (t' ∈ flip_mute t ms) =
  if decide (t' = t) then negb (bool_decide (t ∈ ms)) else bool_decide (t' ∈ ms).
Proof.
  unfold flip_mute. destruct (decide (t' = t)) as [->|Hne].
  - destruct (decide (t ∈ ms)) as [Hin|Hin].
    + rewrite (bool_decide_eq_true_2 _ Hin). cbn.
      apply bool_decide_eq_false_2.
      rewrite elem_of_difference, elem_of_singleton. tauto.
    + rewrite (bool_decide_eq_false_2 _ Hin). cbn.
      apply bool_decide_eq_true_2.
      rewrite elem_of_union, elem_of_singleton. tauto.
  - apply bool_decide_ext. destruct (bool_decide (t ∈ ms)).
    + rewrite elem_of_difference, elem_of_singleton. tauto.
    + rewrite elem_of_union, elem_of_singleton. tauto.
Qed.

Lemma page_reachable_reachable b : page_reachable b → reachable b.
Proof. induction 1; [apply reach_new | by apply reach_exec]. Qed.

(** X3: in every state the page can bring about, the class [muted] of
    the mute button of each track tells whether the track is muted. *)
Theorem mute_buttons_show_mutes (t : string) (b : BeatMaker) :
  page_reachable b → t ∈ tracks → muteBtns b !! t = Some (isMuted b t).
Proof.
  intros Hr%page_reachable_reachable Ht.
  by apply (ok_muted _ (reachable_consistent b Hr)).
Qed.

(** The mute button of the snare after a click on it. *)
Lemma mute_buttons_show_mutes_witness :
  muteBtns snare_muted !! "snare" = Some true.
Proof.
  assert ("snare" ∈ tracks) as Ht by (right; left).
  assert (page_reachable snare_muted) as Hr
    by exact (page_exec _ (ToggleMute "snare") (page_new true) Ht).
  exact (mute_buttons_show_mutes "snare" snare_muted Hr Ht).
Defined.

(** X4: from a reachable state, [toggleMute] of one of the four tracks
    returns and flips whether that track is muted, and that of no other
    track; the pattern and the timing loop are as before; and a second
    call brings back the state the first one started from, the class of
    the mute button of that track then telling whether it is muted. *)
Theorem toggleMute_twice (t : string) (b : BeatMaker) :
  reachable b → t ∈ tracks →
  ∃ b1,
    toggleMute t b = Ok tt b1 ∧
    isMuted b1 t = negb (isMuted b t) ∧
    (∀ t', t' ≠ t → isMuted b1 t' = isMuted b t') ∧
    pattern b1 = pattern b ∧ currentStep b1 = currentStep b ∧
    transport b1 = transport b ∧
    toggleMute t b1 =
      Ok tt (set_muteBtns (<[t := isMuted b t]> (muteBtns b)) b).
Proof.
  intros Hwf%reachable_wf Ht.
  destruct (proj2 (wf_mute_btns _ Hwf t) Ht) as [m Hm].
  set (b1 := set_muteBtns (<[t := negb (isMuted b t)]> (muteBtns b))
               (set_mutedTracks (flip_mute t (mutedTracks b)) b)).
  assert (∀ t', isMuted b1 t' =
                if decide (t' = t) then negb (isMuted b t) else isMuted b t')
    as Hflip by (intros t'; apply isMuted_flip).
  exists b1. split; [by rewrite toggleMute_eq, Hm|].
  split; [|split].
  { rewrite Hflip. by destruct (decide (t = t)). }
  { intros t' Hne. rewrite Hflip. by destruct (decide (t' = t)). }
  do 3 (split; [done|]).
  rewrite toggleMute_eq. cbn [b1 set_muteBtns set_mutedTracks muteBtns].
  rewrite lookup_insert_eq. f_equal.
  fold b1. rewrite Hflip. destruct (decide (t = t)); [|done].
  cbn [b1 set_muteBtns set_mutedTracks mutedTracks muteBtns].
  rewrite flip_mute_twice, insert_insert_eq, negb_involutive.
  by destruct b.
Qed.

(** Muting and unmuting the hi-hat on the new object. *)
Lemma toggleMute_twice_witness :
  ∃ b1, toggleMute "hihat" (constructor true) = Ok tt b1 ∧
    isMuted b1 "hihat" = true ∧
    toggleMute "hihat" b1 =
      Ok tt (set_muteBtns (<["hihat" := false]> (muteBtns (constructor true)))
                          (constructor true)).
Proof.
  assert ("hihat" ∈ tracks) as Ht by (right; right; left).
  destruct (toggleMute_twice "hihat" (constructor true) (reach_new true) Ht)
    as (b1 & H1 & Hm & _ & _ & _ & _ & H2).
  exists b1. split; [exact H1|]. split; [exact Hm | exact H2].
Defined.

(** X5: from a reachable state, [toggleMute] of a track that is not one
    of the four (its name a plain string) throws a [TypeError], for want of
    a button, but only after it has flipped whether that track is muted;
    whether any other track is muted, and every other field, are as
    before. *)
Theorem toggleMute_unknown_track (t : string) (b : BeatMaker) :
  reachable b → plain t = true → t ∉ tracks →
  toggleMute t b =
    Throw TypeError (set_mutedTracks (flip_mute t (mutedTracks b)) b) ∧
  isMuted (run (toggleMute t) b) t = negb (isMuted b t) ∧
  ∀ t', t' ≠ t → isMuted (run (toggleMute t) b) t' = isMuted b t'.
Proof.
  intros Hwf%reachable_wf _ Ht.
  assert (muteBtns b !! t = None) as Hm.
  { destruct (muteBtns b !! t) eqn:Hm; [|done].
    destruct Ht. apply (wf_mute_btns _ Hwf). eauto. }
  unfold run. rewrite toggleMute_eq, Hm. split; [done|].
  unfold isMuted. cbn [final set_mutedTracks mutedTracks]. split.
  - rewrite isMuted_flip. by destruct (decide (t = t)).
  - intros t' Hne. rewrite isMuted_flip. by destruct (decide (t' = t)).
Qed.

(** A track the page does not have. *)
Lemma toggleMute_unknown_track_witness :
  returned (toggleMute "bass" (constructor true)) = false ∧
  isMuted (run (toggleMute "bass") (constructor true)) "bass" = true.
Proof.
  assert ("bass" ∉ tracks) as Ht.
  { unfold tracks. rewrite !elem_of_cons, elem_of_nil.
    intros [H|[H|[H|[H|[]]]]]; discriminate H. }
  destruct (toggleMute_unknown_track "bass" (constructor true)
              (reach_new true) eq_refl Ht) as (Heq & Hm & _).
  split; [by rewrite Heq | exact Hm].
Defined.

(** ** The highlight of the current step *)

(** X6: in every reachable state a step button carries the class
    [current] only while the sequencer is playing, and then only in the
    column of the step played last, one before the current step. *)
Theorem highlight_only_while_playing (t : string) (s : Z) (b : BeatMaker) :
  reachable b → shown_current b t s = Some true →
  isPlaying b = true ∧ s = (currentStep b - 1) mod 16.
Proof. intros Hr. apply (ok_current _ (reachable_consistent b Hr)). Qed.

(** Three ticks in, the column of step 2 is lit. *)
Lemma highlight_only_while_playing_witness :
  shown_current three_ticks_in "crash" 2 = Some true ∧
  isPlaying three_ticks_in = true ∧ currentStep three_ticks_in = 3.
Proof.
  assert (reachable three_ticks_in) as Hr.
  { do 3 apply reach_exec. exact (reach_exec _ TogglePlay (reach_new true)). }
  assert (shown_current three_ticks_in "crash" 2 = Some true) as Hlit
    by reflexivity.
  split; [exact Hlit|].
  split; [|reflexivity].
  exact (proj1 (highlight_only_while_playing "crash" 2 three_ticks_in Hr Hlit)).
Defined.

(** X7: a tick from a reachable state gives the class [current] to the
    buttons of all tracks at the step it plays and to no other button of
    the grid, and leaves the class [active] of every button as it was;
    after [pause] no button of the grid has the class [current]. *)
Theorem playStep_moves_highlight (t : string) (s : Z) (b : BeatMaker) :
  reachable b → t ∈ tracks → 0 ≤ s < 16 →
  shown_current (run playStep b) t s =
    Some (bool_decide (s = currentStep b)) ∧
  shown_active (run playStep b) t s = shown_active b t s ∧
  shown_current (run pause b) t s = Some false.
Proof.
  intros Hwf%reachable_wf Ht Hs.
  destruct (proj2 (wf_btns _ Hwf t s) (conj Ht Hs)) as [c Hc].
  unfold shown_current, shown_active.
  rewrite playStep_buttons, Hc by done. do 2 (split; [done|]).
  unfold run. rewrite pause_eq. cbn. by rewrite lookup_fmap, Hc.
Qed.

(** The first tick of the new object lights the first column. *)
Lemma playStep_moves_highlight_witness :
  shown_current (run playStep (constructor true)) "snare" 0 = Some true.
Proof.
  assert ("snare" ∈ tracks) as Ht by (right; left).
  assert (0 ≤ 0 < 16) as Hs by lia.
  exact (proj1 (playStep_moves_highlight "snare" 0 (constructor true)
                  (reach_new true) Ht Hs)).
Defined.

(** ** The timer and the tempo *)

(** X8: in every reachable state a live timer has the delay computed
    from the tempo the object has now, not from an earlier one. *)
Theorem timer_runs_at_tempo (id : positive) (iv : number) (b : BeatMaker) :
  reachable b → timers b !! id = Some iv → iv = interval_of (tempo b).
Proof. intros Hr. apply (ok_interval _ (reachable_consistent b Hr)). Qed.

(** Started at 120 and set to 90 while playing. *)
Lemma timer_runs_at_tempo_witness :
  timers playing_at_90 !! 2%positive = Some (interval_of (of_Z 90)).
Proof.
  assert (reachable playing_at_90) as Hr.
  { exact (reach_exec _ (UpdateTempo "90")
             (reach_exec _ TogglePlay (reach_new true))). }
  assert (timers playing_at_90 !! 2%positive =
          Some (Quot (Quot (Fin 60000) (Fin 90)) (Fin 4))) as Hlive
    by reflexivity.
  rewrite Hlive. apply (f_equal Some).
  exact (timer_runs_at_tempo 2 _ playing_at_90 Hr Hlive).
Defined.


(** ** The sounds begun *)



(** X10: when the browser gave no audio context, no sound is ever begun:
    in every state reachable from such an object the list of sounds is
    empty. *)
Theorem no_context_no_sound (b : BeatMaker) :
  reachable b → audioContext b = false → voices b = [].
Proof. intros Hr. apply (ok_silent _ (reachable_consistent b Hr)). Qed.

(** Playing a pattern without audio. *)
Lemma no_context_no_sound_witness :
  voices (run (exec (Tick 1)) crash_playing) = [].
Proof.
  assert (reachable (run (exec (Tick 1)) crash_playing)) as Hr.
  { apply reach_exec.
    exact (reach_exec _ TogglePlay
             (reach_exec _ (ToggleStep "crash" 7) (reach_new false))). }
  assert (audioContext (run (exec (Tick 1)) crash_playing) = false) as Hoff
    by (by vm_compute).
  exact (no_context_no_sound _ Hr Hoff).
Defined.

Lemma default_sounds_tracks t :
  t ∈ tracks → ∃ c d, default_sounds !! t = Some c ∧ decay c = Some d.
Proof.
  intros Ht. apply elem_of_tracks in Ht as [-> | [-> | [-> | ->]]];
    by do 2 eexists.
Qed.



(** ** Sound parameters *)

(** X12: in every reachable state each of the four tracks has parameters;
    its decay is the one the constructor gave it, and its frequency and
    waveform are either the constructor's or those of one entry of the
    table of variants. *)
Theorem sounds_come_from_tables (t : string) (b : BeatMaker) :
  reachable b → t ∈ tracks →
  ∃ c0 c,
    default_sounds !! t = Some c0 ∧ soundConfig b !! t = Some c ∧
    decay c = decay c0 ∧
    ((frequency c = frequency c0 ∧ type c = type c0) ∨
     ∃ id v, variations !! id = Some v ∧
       frequency c = var_frequency v ∧ type c = var_type v).
Proof.
  intros Hr Ht. destruct (default_sounds_tracks t Ht) as (c0 & _ & Hc0 & _).
  destruct (ok_sounds _ (reachable_consistent b Hr) t c0 Hc0)
    as (c & Hc & Hd & Hp).
  by exists c0, c.
Qed.

(** The crash after it was given a variant of the hi-hat. *)
Lemma sounds_come_from_tables_witness :
  ∃ c, soundConfig (run (changeSound "crash" "hihat2") (constructor true))
         !! "crash" = Some c ∧ decay c = Some 1%Q.
Proof.
  assert ("crash" ∈ tracks) as Ht by (right; right; right; left).
  destruct (sounds_come_from_tables "crash" _
              (reach_exec _ (ChangeSound "crash" "hihat2") (reach_new true)) Ht)
    as (c0 & c & Hc0 & Hc & Hd & _).
  exists c. split; [exact Hc|]. injection Hc0 as <-. exact Hd.
Defined.

(** X13: a change of sound is heard at the next audition.  From a
    reachable state with an audio context, after [changeSound] with an
    identifier of the table, a toggle that makes a cell of that track
    active begins one sound with the frequency and the waveform of the
    variant, and with the filter and the decay of the track. *)
Theorem changeSound_then_audition (t id : string) (v : variation) (s : Z)
    (b : BeatMaker) :
  reachable b → audioContext b = true → t ∈ tracks → 0 ≤ s < 16 →
  variations !! id = Some v → isActive b t s = false →
  ∃ b' x,
    toggleStep t s (run (changeSound t id) b) = Ok tt b' ∧
    voices b' = voices b ++ [x] ∧
    v_track x = t ∧ v_frequency x = var_frequency v ∧
    v_type x = var_type v ∧ v_filter x = filter_of t ∧
    decay <$> default_sounds !! t = Some (Some (v_decay x)).
Proof.
  intros Hr Hon Ht Hs Hv Hoff.
  pose proof (reach_exec b (ChangeSound t id) Hr) as Hr1.
  cbn [exec] in Hr1. set (b1 := run (changeSound t id) b) in *.
  destruct (wf_sounds _ (reachable_wf b Hr) t Ht) as (c & d & Hc & Hd).
  assert (b1 = set_soundConfig
                 (<[t := Config (var_frequency v) (var_type v) (decay c)]>
                    (soundConfig b)) b) as Hb1.
  { unfold b1, run. by rewrite (changeSound_found t id v c). }
  destruct (toggleStep_effect t s b1 (reachable_wf b1 Hr1) Ht Hs)
    as (a & x & cfg & d' & b' & Ha & Hx & _ & Hcfg & Hd' & Heq & _ & _ & Hvs).
  assert (x = false) as ->.
  { rewrite Hb1 in Ha. cbn in Ha. unfold isActive in Hoff.
    rewrite Ha in Hoff. cbn in Hoff. by rewrite Hx in Hoff. }
  rewrite Hb1 in Hcfg, Hvs. cbn in Hcfg, Hvs.
  rewrite lookup_insert_eq in Hcfg. injection Hcfg as <-.
  rewrite Hon in Hvs. cbn in Hvs, Hd'.
  exists b', (voice_of t (Config (var_frequency v) (var_type v) (decay c)) d').
  do 6 (split; [done|]).
  destruct (default_sounds_tracks _ Ht) as (c0 & d0 & Hc0 & Hd0).
  destruct (ok_sounds _ (reachable_consistent b Hr) _ c0 Hc0)
    as (c' & Hc' & Hdec & _).
  assert (c' = c) as -> by congruence.
  rewrite Hc0. cbn. by rewrite <- Hdec, Hd'.
Qed.

(** The kick given the second variant of the snare, then auditioned. *)
Lemma changeSound_then_audition_witness :
  ∃ b' x,
    toggleStep "kick" 4 (run (changeSound "kick" "snare2") (constructor true)) =
      Ok tt b' ∧
    voices b' = [x] ∧ v_frequency x = 300 ∧ v_type x = sawtooth ∧
    v_filter x = Lowpass 100.
Proof.
  assert ("kick" ∈ tracks) as Ht by (by left).
  assert (0 ≤ 4 < 16) as Hs by lia.
  destruct (changeSound_then_audition "kick" "snare2" (Variation 300 sawtooth)
              4 (constructor true) (reach_new true) eq_refl Ht Hs eq_refl
              eq_refl)
    as (b' & x & Heq & Hvs & _ & Hf & Hty & Hfl & _).
  exists b', x. split; [exact Heq|]. split; [exact Hvs|].
  split; [exact Hf|]. split; [exact Hty | exact Hfl].
Defined.

(** ** Pause and stop, once more *)

Lemma with_current_false_twice (m : gmap (string * Z) classes) :
  with_current false <$> (with_current false <$> m) = with_current false <$> m.
Proof.
  apply map_eq. intros k. rewrite !lookup_fmap. by destruct (m !! k).
Qed.

Lemma state_eq (b1 b2 : BeatMaker) :
  currentStep b1 = currentStep b2 → isPlaying b1 = isPlaying b2 →
  tempo b1 = tempo b2 → intervalId b1 = intervalId b2 →
  pattern b1 = pattern b2 → mutedTracks b1 = mutedTracks b2 →
  audioContext b1 = audioContext b2 → soundConfig b1 = soundConfig b2 →
  timers b1 = timers b2 → nextTimerId b1 = nextTimerId b2 →
  stepBtns b1 = stepBtns b2 → muteBtns b1 = muteBtns b2 →
  voices b1 = voices b2 → b1 = b2.
Proof. destruct b1, b2. cbn. by intros -> -> -> -> -> -> -> -> -> -> -> -> ->. Qed.

Lemma pause_fields b :
  currentStep (run pause b) = currentStep b ∧ isPlaying (run pause b) = false ∧
  tempo (run pause b) = tempo b ∧ intervalId (run pause b) = None ∧
  pattern (run pause b) = pattern b ∧
  mutedTracks (run pause b) = mutedTracks b ∧
  audioContext (run pause b) = audioContext b ∧
  soundConfig (run pause b) = soundConfig b ∧
  timers (run pause b) = cancel (intervalId b) (timers b) ∧
  nextTimerId (run pause b) = nextTimerId b ∧
  stepBtns (run pause b) = with_current false <$> stepBtns b ∧
  muteBtns (run pause b) = muteBtns b ∧ voices (run pause b) = voices b.
Proof. unfold run. rewrite pause_eq. by repeat split. Qed.

Lemma stop_fields b :
  currentStep (run stop b) = 0 ∧ isPlaying (run stop b) = false ∧
  tempo (run stop b) = tempo b ∧ intervalId (run stop b) = None ∧
  pattern (run stop b) = pattern b ∧
  mutedTracks (run stop b) = mutedTracks b ∧
  audioContext (run stop b) = audioContext b ∧
  soundConfig (run stop b) = soundConfig b ∧
  timers (run stop b) = cancel (intervalId b) (timers b) ∧
  nextTimerId (run stop b) = nextTimerId b ∧
  stepBtns (run stop b) = with_current false <$> stepBtns b ∧
  muteBtns (run stop b) = muteBtns b ∧ voices (run stop b) = voices b.
Proof.
  unfold run at 1 2 3 4 5 6 7 8 9 10 11 12 13. rewrite stop_eq.
  cbn [final set_currentStep currentStep isPlaying tempo intervalId pattern
       mutedTracks audioContext soundConfig timers nextTimerId stepBtns
       muteBtns voices].
  split; [done|]. apply pause_fields.
Qed.

(** X14: in any state, [pause] and [stop] do nothing more when called a
    second time, and [stop] after [pause], like [pause] after [stop],
    leaves the state that [stop] alone leaves. *)
Theorem pause_and_stop_settle (b : BeatMaker) :
  run pause (run pause b) = run pause b ∧
  run stop (run stop b) = run stop b ∧
  run stop (run pause b) = run stop b ∧
  run pause (run stop b) = run stop b.
Proof.
  pose proof (pause_fields b) as (P1 & P2 & P3 & P4 & P5 & P6 & P7 & P8 & P9 & P10 & P11 & P12 & P13).
  pose proof (stop_fields b) as (S1 & S2 & S3 & S4 & S5 & S6 & S7 & S8 & S9 & S10 & S11 & S12 & S13).
  pose proof (pause_fields (run pause b)) as (A1 & A2 & A3 & A4 & A5 & A6 & A7 & A8 & A9 & A10 & A11 & A12 & A13).
  pose proof (stop_fields (run stop b)) as (B1 & B2 & B3 & B4 & B5 & B6 & B7 & B8 & B9 & B10 & B11 & B12 & B13).
  pose proof (stop_fields (run pause b)) as (C1 & C2 & C3 & C4 & C5 & C6 & C7 & C8 & C9 & C10 & C11 & C12 & C13).
  pose proof (pause_fields (run stop b)) as (D1 & D2 & D3 & D4 & D5 & D6 & D7 & D8 & D9 & D10 & D11 & D12 & D13).
  repeat split; apply state_eq;
    rewrite ?A1, ?A2, ?A3, ?A4, ?A5, ?A6, ?A7, ?A8, ?A9, ?A10, ?A11, ?A12, ?A13,
      ?B1, ?B2, ?B3, ?B4, ?B5, ?B6, ?B7, ?B8, ?B9, ?B10, ?B11, ?B12, ?B13,
      ?C1, ?C2, ?C3, ?C4, ?C5, ?C6, ?C7, ?C8, ?C9, ?C10, ?C11, ?C12, ?C13,
      ?D1, ?D2, ?D3, ?D4, ?D5, ?D6, ?D7, ?D8, ?D9, ?D10, ?D11, ?D12, ?D13,
      ?P1, ?P2, ?P3, ?P4, ?P5, ?P6, ?P7, ?P8, ?P9, ?P10, ?P11, ?P12, ?P13,
      ?S1, ?S2, ?S3, ?S4, ?S5, ?S6, ?S7, ?S8, ?S9, ?S10, ?S11, ?S12, ?S13,
      ?with_current_false_twice;
    done.
Qed.

(** ** Ticks, once more *)

Lemma ticks_keep n b :
  wf b →
  pattern (Nat.iter n (run playStep) b) = pattern b ∧
  transport (Nat.iter n (run playStep) b) = transport b ∧
  settings (Nat.iter n (run playStep) b) = settings b ∧
  ∃ vs, voices (Nat.iter n (run playStep) b) = voices b ++ vs.
Proof.
  intros Hwf. induction n as [|n (Hpat & Htr & Hset & vs & Hvs)].
  { do 3 (split; [done|]). exists []. by rewrite app_nil_r. }
  change (Nat.iter (S n) (run playStep) b)
    with (run playStep (Nat.iter n (run playStep) b)).
  pose proof (ticks_wf n b Hwf) as Hwfn.
  set (bn := Nat.iter n (run playStep) b) in *.
  destruct (playStep_ok bn Hwfn)
    as (b' & Heq & _ & _ & Hpat' & Htr' & Hset' & Hvs').
  unfold run. rewrite Heq. cbn [final].
  rewrite Hpat', Htr', Hset', Hvs', Hvs, <- app_assoc. eauto.
Qed.

(** X15: ticks move the current step and begin sounds, and nothing else:
    from a reachable state, after any number of ticks the pattern, the
    tempo, the timers, the mutes and the sound parameters are as before,
    and after a multiple of 16 ticks the current step is as before too. *)
Theorem ticks_only_move_the_step (n : nat) (b : BeatMaker) :
  reachable b →
  pattern (Nat.iter n (run playStep) b) = pattern b ∧
  transport (Nat.iter n (run playStep) b) = transport b ∧
  settings (Nat.iter n (run playStep) b) = settings b ∧
  (Z.of_nat n mod 16 = 0 →
     currentStep (Nat.iter n (run playStep) b) = currentStep b).
Proof.
  intros Hwf%reachable_wf.
  destruct (ticks_keep n b Hwf) as (Hpat & Htr & Hset & _).
  do 3 (split; [done|]). intros Hn.
  rewrite ticks_currentStep by done. pose proof (wf_step _ Hwf) as Hs.
  unfold steps in *.
  rewrite Z.add_mod, Hn, Z.add_0_r, Z.mod_mod, Z.mod_small by lia. done.
Qed.

(** One turn of the loop, started three ticks in. *)
Lemma ticks_only_move_the_step_witness :
  currentStep (Nat.iter 16 (run playStep) three_ticks_in) = 3.
Proof.
  assert (reachable three_ticks_in) as Hr.
  { do 3 apply reach_exec. exact (reach_exec _ TogglePlay (reach_new true)). }
  destruct (ticks_only_move_the_step 16 three_ticks_in Hr)
    as (_ & _ & _ & Hstep).
  exact (Hstep eq_refl).
Defined.

Lemma tick_voices_none b (l : list string) :
  (∀ t, t ∈ l → fires b t = false) → tick_voices b l = [].
Proof.
  intros Hl. unfold tick_voices. destruct (audioContext b); [|done].
  induction l as [|t l IH]; [done|].
  rewrite list.filter_cons. rewrite (Hl t) by left. case_decide; [done|].
  apply IH. intros t' Ht'. apply Hl. by right.
Qed.

(** X16: after [clearAll] the loop is silent: from a reachable state, no
    number of ticks after [clearAll] begins a sound. *)
Theorem silent_after_clearAll (n : nat) (b : BeatMaker) :
  reachable b →
  voices (Nat.iter n (run playStep) (run clearAll b)) = voices b.
Proof.
  intros Hwf%reachable_wf.
  destruct (clearAll_ok b Hwf)
    as (_ & b0 & _ & _ & Heq & Hwf0 & Hrows & _ & _ & _ & _ & _ & _ & Hvs).
  unfold run at 2. rewrite Heq. cbn [final]. rewrite <- Hvs.
  induction n as [|n IH]; [done|].
  change (Nat.iter (S n) (run playStep) b0)
    with (run playStep (Nat.iter n (run playStep) b0)).
  pose proof (ticks_wf n b0 Hwf0) as Hwfn.
  destruct (ticks_keep n b0 Hwf0) as (Hpat & _).
  set (bn := Nat.iter n (run playStep) b0) in *.
  destruct (playStep_ok bn Hwfn) as (b' & Heq' & _ & _ & _ & _ & _ & Hvs').
  unfold run. rewrite Heq'. cbn [final].
  rewrite Hvs', IH, tick_voices_none; [by rewrite app_nil_r|].
  intros t Ht. unfold fires, isActive. rewrite Hpat.
  destruct (Hrows t Ht) as (a & -> & Hcl & Hlen & _). cbn.
  rewrite Hcl; [done|]. pose proof (wf_step _ Hwfn). lia.
Qed.

(** The kick was set; after [clearAll], a turn of the loop adds nothing to
    the one sound of the audition. *)
Lemma silent_after_clearAll_witness :
  voices (Nat.iter 16 (run playStep) (run clearAll kick_on_first)) =
  voices kick_on_first.
Proof.
  assert (reachable kick_on_first) as Hr
    by exact (reach_exec _ (ToggleStep "kick" 0) (reach_new true)).
  exact (silent_after_clearAll 16 kick_on_first Hr).
Defined.

(** ** The keyboard and the arguments of the handlers *)

Lemma togglePlay_returns b : returned (togglePlay b) = true.
Proof.
  unfold togglePlay. mred.
  destruct (isPlaying b); [by rewrite pause_eq | by rewrite play_eq].
Qed.

Lemma clearAll_returns b : wf b → returned (clearAll b) = true.
Proof.
  intros Hwf. by destruct (clearAll_ok b Hwf) as (_ & b' & _ & _ & -> & _).
Qed.

(** X17: from a reachable state, every call the page makes returns, and
    so does every tick; a [toggleStep] with a track or a step that is not
    of the grid throws. *)
Theorem page_calls_return (c : command) (b : BeatMaker) :
  reachable b →
  (from_page c → returned (exec c b) = true) ∧
  (∀ t s, ¬ (t ∈ tracks ∧ 0 ≤ s < steps) → returned (toggleStep t s b) = false).
Proof.
  intros Hwf%reachable_wf. split.
  - destruct c; cbn [exec from_page]; intros Hc.
    + apply togglePlay_returns.
    + by rewrite pause_eq.
    + by rewrite stop_eq.
    + by apply clearAll_returns.
    + by rewrite updateTempo_eq.
    + rewrite toggleMute_eq.
      by destruct (proj2 (wf_mute_btns _ Hwf track) Hc) as [m ->].
    + by rewrite changeSound_eq.
    + destruct Hc as [Ht Hs].
      by destruct (toggleStep_in_range track step b Hwf Ht Hs)
        as (? & ? & ? & ? & ? & _ & _ & _ & _ & _ & _ & ->).
    + mred. destruct (timers b !! id); [|done].
      by destruct (playStep_ok b Hwf) as (b' & -> & _).
  - intros t s Hoff. destruct (pattern b !! t) as [a|] eqn:Hp.
    2: { by rewrite toggleStep_unknown. }
    rewrite (toggleStep_no_button t s a); [done..|].
    destruct (stepBtns b !! (t, s)) eqn:Hb; [|done].
    destruct Hoff. apply (wf_btns _ Hwf t s). eauto.
Qed.

(** A click the page can make, and a call it cannot. *)
Lemma page_calls_return_witness :
  returned (exec (ToggleStep "snare" 9) (constructor true)) = true ∧
  returned (toggleStep "snare" 16 (constructor true)) = false.
Proof.
  destruct (page_calls_return (ToggleStep "snare" 9) (constructor true)
              (reach_new true)) as [Hyes Hno].
  split.
  - apply Hyes. split; [right; left | unfold steps; lia].
  - apply Hno. unfold steps. intros [_ Hs]. lia.
Defined.



(** ** A tempo that is not a number *)

Lemma digits_none (c : ascii) (r : string) :
  digit_in 10 c = None → digits 10 (String c r) None = None.
Proof. intros Hc. cbn [digits]. by rewrite Hc. Qed.

(** X19: [updateTempo] with the empty string, or with a string whose
    first character is neither white space, nor a sign, nor a decimal
    digit, returns with the tempo [NaN]; while playing, the timer it
    installs has the delay [NaN]. *)
Theorem updateTempo_not_a_number (s : string) (b : BeatMaker) :
  (s = "" ∨ ∃ c r, s = String c r ∧ is_space c = false ∧
                   c ≠ "-"%char ∧ c ≠ "+"%char ∧ digit_in 10 c = None) →
  ∃ b', updateTempo s b = Ok tt b' ∧ tempo b' = NaN ∧
    (isPlaying b = true → timers b' !! nextTimerId b = Some NaN).
Proof.
  intros Hs. assert (parseInt s = NaN) as Hnan.
  { destruct Hs as [->|(c & r & -> & Hsp & Hm & Hp & Hd)]; [done|].
    unfold parseInt. cbn [trim_start]. rewrite Hsp.
    assert (strip_sign (String c r) = (1, String c r)) as ->.
    { unfold strip_sign. destruct c as [[] [] [] [] [] [] [] []]; try done. }
    assert (magnitude (String c r) = None) as ->; [|done].
    unfold magnitude.
    assert (strip_radix (String c r) = (10, String c r)) as ->.
    { unfold strip_radix.
      destruct c as [[] [] [] [] [] [] [] []]; try done. }
    by apply digits_none. }
  rewrite updateTempo_eq, Hnan. eexists; split; [done|].
  destruct (isPlaying b); cbn; [|done]. split; [done|].
  intros _. by rewrite lookup_insert_eq.
Qed.

(** A word instead of a number, while playing. *)
Lemma updateTempo_not_a_number_witness :
  ∃ b', updateTempo "fast" (run togglePlay (constructor true)) = Ok tt b' ∧
    tempo b' = NaN ∧ timers b' !! 2%positive = Some NaN.
Proof.
  destruct (updateTempo_not_a_number "fast" (run togglePlay (constructor true)))
    as (b' & Heq & Hnan & Hon).
  { right. exists "f"%char, "ast". repeat split; discriminate. }
  exists b'. split; [exact Heq|]. split; [exact Hnan|]. exact (Hon eq_refl).
Defined.
